(** * Process allocation of [load_balancer.py]

    A shallow embedding of the allocation core of
    [Assignment2_Load_Balancing/src/load_balancer.py]: the [Node] and
    [Process] dataclasses, [Node.calculate_load_score], [Node.has_capacity],
    [ProcessAllocator.__init__], [ProcessAllocator.allocate_processes] and
    [ProcessAllocator._allocate_single_process].

    Modelling choices.
    - Python [int] fields are [Z].  Python [float] fields and every score are
      exact rationals [Q]: the arithmetic is the one written in the source,
      without binary rounding, overflow or NaN.
    - [str] is [string], read as a sequence of code points below 256.
    - [self.nodes] is a [dict] whose iteration order matters ([min] keeps the
      first of several minimal candidates): an association list in insertion
      order.  A [dict] has distinct keys; statements that depend on it assume
      [NoDup (dict_keys d)].
    - [self.allocations] is only read and written by key: a [gmap].
    - [self.allocations[name]] raises [KeyError] on a missing key: the
      allocation path runs in the option monad, [None] being the exception.
    - [allocate_processes] returns [self.allocations]; the model returns the
      whole allocator, so that the final registry can be inspected too.
    - Of the printed report only the per-process outcome of step 3 is kept,
      as the outcome log: it records, per workload, the value that
      [_allocate_single_process] returned.  Which of the two lines is
      printed for it is decided by the truth value of that name ([truthy]).
    - Where a statement depends on the code not overflowing or not rounding,
      it says so with [small_int], [exact_float] and the predicates built
      from them: integers that a double holds exactly, and memory values
      whose sums a double holds exactly. *)

From Stdlib Require Import ZArith QArith Lqa String Ascii List Permutation.
From stdpp Require Import base option list sorting gmap strings.

Open Scope Z_scope.

(** ** Strings: [str.lower] and the [in] operator *)

(** [c.lower()] for one code point below 256: A-Z, and the Latin-1 capitals
    U+00C0-U+00DE except the multiplication sign U+00D7, move up by 32. *)
Definition lower_char (c : ascii) : ascii :=
  let n := N_of_ascii c in
  if ((65 <=? n)%N && (n <=? 90)%N)
     || ((192 <=? n)%N && (n <=? 222)%N && negb (n =? 215)%N)
  then ascii_of_N (n + 32)
  else c.

Fixpoint lower (s : string) : string :=
  match s with
  | EmptyString => EmptyString
  | String c s' => String (lower_char c) (lower s')
  end.

Fixpoint startswith (text sub : string) {struct sub} : bool :=
  match sub, text with
  | EmptyString, _ => true
  | String a sub', String b text' => Ascii.eqb a b && startswith text' sub'
  | String _ _, EmptyString => false
  end.

(** [sub in text] *)
Fixpoint contains (text sub : string) : bool :=
  startswith text sub
  || match text with
     | EmptyString => false
     | String _ text' => contains text' sub
     end.

(** ** The dataclasses *)

Record Node := mkNode {
  name : string;
  latency : Z;
  throughput : Z;
  packet_loss : Q;
  cpu : Z;
  memory : Q;
  services : list string
}.

Record Process := mkProcess {
  process_id : string;
  cpu_requirement : Z;
  memory_requirement : Q;
  service_type : string;
  priority : Z
}.

Definition calculate_load_score (self : Node) : Q :=
  let cpu_weight := 0.6%Q in
  let memory_weight := 0.3%Q in
  let latency_weight := 0.1%Q in
  (inject_Z (cpu self) / 100 * cpu_weight
   + memory self / 20 * memory_weight
   + inject_Z (latency self) / 30 * latency_weight)%Q.

Definition has_capacity (self : Node) (cpu_needed : Z) (memory_needed : Q) : bool :=
  (cpu self + cpu_needed <=? 90) && Qle_bool (memory self + memory_needed) 18.

(** ** ProcessAllocator *)

Record ProcessAllocator := mkAllocator {
  nodes : list (string * Node);
  allocations : gmap string (list Process)
}.

(** [nodes.keys()] *)
Definition dict_keys (d : list (string * Node)) : list string := fst <$> d.

(** [nodes[key]] *)
Fixpoint dict_get (d : list (string * Node)) (key : string) : option Node :=
  match d with
  | [] => None
  | (k, v) :: d' => if decide (k = key) then Some v else dict_get d' key
  end.

(** [__init__]: [{name: [] for name in nodes.keys()}] *)
Definition ProcessAllocator_init (nodes : list (string * Node)) : ProcessAllocator :=
  {| nodes := nodes;
     allocations := list_to_map ((fun name => (name, [])) <$> dict_keys nodes) |}.

Definition service_match (node : Node) (process : Process) : bool :=
  existsb (fun svc => contains (lower (service_type process)) svc)
          (map lower (services node)).

Definition placement_score (node : Node) (process : Process) : Q :=
  let load_score := calculate_load_score node in
  let latency_score := (inject_Z (latency node) / 30)%Q in
  (load_score * 0.5 + latency_score * 0.3
   + (if service_match node process then 0 else 0.2))%Q.

Definition candidate : Type := string * Node * Q.

(** The [for name, node in self.nodes.items()] loop that fills [candidates]. *)
Fixpoint find_candidates (items : list (string * Node)) (process : Process)
  : list candidate :=
  match items with
  | [] => []
  | (name, node) :: items' =>
      if has_capacity node (cpu_requirement process) (memory_requirement process)
      then (name, node, placement_score node process) :: find_candidates items' process
      else find_candidates items' process
  end.

Definition score_lt (x y : Q) : bool := negb (Qle_bool y x).

(** [min(candidates, key=lambda x: x[2])] on a non-empty list: the running
    best is replaced only by a strictly smaller key. *)
Fixpoint min_from (best : candidate) (rest : list candidate) : candidate :=
  match rest with
  | [] => best
  | c :: rest' => min_from (if score_lt (snd c) (snd best) then c else best) rest'
  end.

(** [best_node.cpu += ...; best_node.memory += ...] *)
Definition commit (process : Process) (best_node : Node) : Node :=
  {| name := name best_node;
     latency := latency best_node;
     throughput := throughput best_node;
     packet_loss := packet_loss best_node;
     cpu := cpu best_node + cpu_requirement process;
     memory := (memory best_node + memory_requirement process)%Q;
     services := services best_node |}.

(** The node object stored under [key] is mutated in place. *)
Fixpoint update_node (key : string) (f : Node -> Node) (d : list (string * Node))
  : list (string * Node) :=
  match d with
  | [] => []
  | (k, v) :: d' =>
      if decide (k = key) then (k, f v) :: d' else (k, v) :: update_node key f d'
  end.

(** Outer [None]: [KeyError]; inner [None]: the Python [return None]. *)
Definition _allocate_single_process (self : ProcessAllocator) (process : Process)
  : option (ProcessAllocator * option string) :=
  match find_candidates (nodes self) process with
  | [] => Some (self, None)
  | c :: cs =>
      let '(best_node_name, best_node, _) := min_from c cs in
      lst ← allocations self !! best_node_name;
      Some ({| nodes := update_node best_node_name (commit process) (nodes self);
               allocations := <[best_node_name := lst ++ [process]]> (allocations self) |},
            Some best_node_name)
  end.

(** [sorted(processes, key=lambda p: p.priority, reverse=True)]: a stable
    sort by descending priority, written as an insertion sort. *)
Fixpoint insert_by_priority (p : Process) (l : list Process) : list Process :=
  match l with
  | [] => [p]
  | q :: l' =>
      if priority q <=? priority p then p :: q :: l' else q :: insert_by_priority p l'
  end.

Definition sorted_by_priority (processes : list Process) : list Process :=
  foldr insert_by_priority [] processes.

Definition outcome : Type := Process * option string.

(** The [for process in sorted_processes] loop, with its outcome lines. *)
Fixpoint allocate_loop (self : ProcessAllocator) (sorted_processes : list Process)
  : option (ProcessAllocator * list outcome) :=
  match sorted_processes with
  | [] => Some (self, [])
  | process :: rest =>
      '(self1, allocated) ← _allocate_single_process self process;
      '(self2, log) ← allocate_loop self1 rest;
      Some (self2, (process, allocated) :: log)
  end.

Definition allocate_processes (self : ProcessAllocator) (processes : list Process)
  : option (ProcessAllocator * list outcome) :=
  allocate_loop self (sorted_by_priority processes).

(** ** Exceptions of the reporting code

    The latency analysis and the status table can stop with an exception;
    they run in an error monad that names it. *)

Inductive exn : Type := ValueError | ZeroDivisionError | OverflowError | KeyError.

Definition result (A : Type) : Type := exn + A.

Definition raise {A : Type} (e : exn) : result A := inl e.

Definition ret {A : Type} (a : A) : result A := inr a.

Definition bind {A B : Type} (m : result A) (k : A -> result B) : result B :=
  match m with
  | inl e => inl e
  | inr a => k a
  end.

Notation "'do' x <- m ; k" := (bind m (fun x => k))
  (at level 10, x name, m at level 100, k at level 200).

(** The least magnitude that does not round to a finite double: half an ulp
    above the largest double, [2^1024 - 2^970]. *)
Definition double_overflow : Z := 2 ^ 1024 - 2 ^ 970.

(** [a / b] on two [int]s: Python rounds the exact quotient to the nearest
    double; it raises [ZeroDivisionError] when [b] is zero and
    [OverflowError] when the quotient is too large for a double.  The
    quotient itself is kept exact. *)
Definition true_div (a b : Z) : result Q :=
  if b =? 0 then raise ZeroDivisionError
  else if double_overflow * Z.abs b <=? Z.abs a then raise OverflowError
  else ret (inject_Z a / inject_Z b)%Q.

(** [x / y] on two [float]s. *)
Definition float_div (x y : Q) : result Q :=
  if Qeq_bool y 0 then raise ZeroDivisionError else ret (x / y)%Q.

(** [max(items, key=...)] and [min(items)]: the running best is replaced
    only by a strictly better item, so the first of several extremal items
    is kept; an empty argument raises [ValueError]. *)
Fixpoint max_from {A : Type} (key : A -> Z) (best : A) (rest : list A) : A :=
  match rest with
  | [] => best
  | c :: rest' => max_from key (if key best <? key c then c else best) rest'
  end.

Definition py_max {A : Type} (key : A -> Z) (items : list A) : result A :=
  match items with
  | [] => raise ValueError
  | x :: xs => ret (max_from key x xs)
  end.

Fixpoint min_from_Z (best : Z) (rest : list Z) : Z :=
  match rest with
  | [] => best
  | c :: rest' => min_from_Z (if c <? best then c else best) rest'
  end.

Definition py_min (items : list Z) : result Z :=
  match items with
  | [] => raise ValueError
  | x :: xs => ret (min_from_Z x xs)
  end.

Fixpoint max_from_Q (best : Q) (rest : list Q) : Q :=
  match rest with
  | [] => best
  | c :: rest' => max_from_Q (if score_lt best c then c else best) rest'
  end.

Definition py_max_Q (items : list Q) : result Q :=
  match items with
  | [] => raise ValueError
  | x :: xs => ret (max_from_Q x xs)
  end.

(** [sum(...)] of [int]s. *)
Definition py_sum (items : list Z) : Z := foldr Z.add 0 items.

(** [self.nodes[key]] *)
Definition dict_lookup (d : list (string * Node)) (key : string) : result Node :=
  match dict_get d key with
  | Some v => ret v
  | None => raise KeyError
  end.

(** ** LatencyAnalyzer *)

(** The loop of section 4, one [node.throughput / node.latency] per node. *)
Fixpoint efficiencies (items : list (string * Node)) : result (list Q) :=
  match items with
  | [] => ret []
  | (name, node) :: items' =>
      do efficiency <- true_div (throughput node) (latency node);
      do rest <- efficiencies items';
      ret (efficiency :: rest)
  end.

(** [identify_max_latency_node].  The mean, the standard deviation, the
    z-scores and the deviation from the mean are NumPy values that are only
    printed; they are left out, and so is whatever NumPy does with integers
    that do not fit its 64-bit arrays.  Every Python division is kept, in
    the order of the source, with its [ZeroDivisionError] and its
    [OverflowError].  The statements about the exceptions of this function
    are made for registries whose integers are [small_int]: there NumPy
    works on 64-bit integers and only warns on a division by zero. *)
Definition identify_max_latency_node (nodes : list (string * Node))
  : result (string * Node) :=
  let latency_data := (fun kv : string * Node => (kv.1, latency kv.2)) <$> nodes in
  do max_entry <- py_max snd latency_data;
  let max_node_name := max_entry.1 in
  do max_node <- dict_lookup nodes max_node_name;
  let total_latency := py_sum (snd <$> latency_data) in
  do contribution <- true_div (latency max_node) total_latency;
  do min_latency <- py_min (snd <$> latency_data);
  do degradation_factor <- true_div (latency max_node) min_latency;
  do all_efficiencies <- efficiencies nodes;
  do max_efficiency <- true_div (throughput max_node) (latency max_node);
  do best_efficiency <- py_max_Q all_efficiencies;
  do efficiency_gap <- float_div (best_efficiency - max_efficiency) best_efficiency;
  ret (max_node_name, max_node).

(** [analyze_latency_distribution]: the minimum, the maximum and the range
    it prints (the median and the mean are NumPy values and are left out). *)
Definition analyze_latency_distribution (nodes : list (string * Node))
  : result (Z * Z * Z) :=
  let latencies := (fun kv : string * Node => latency kv.2) <$> nodes in
  do minimum <- py_min latencies;
  do maximum <- py_max id latencies;
  ret (minimum, maximum, maximum - minimum).

(** ** Status table and report *)

Definition status_row : Type := string * Z * Q * Q * nat.

(** The rows of [_print_node_status]: name, cpu, memory, load score and
    [len(self.allocations[name])]. *)
Fixpoint status_rows (allocations : gmap string (list Process))
         (items : list (string * Node)) : result (list status_row) :=
  match items with
  | [] => ret []
  | (name, node) :: items' =>
      match allocations !! name with
      | None => raise KeyError
      | Some procs =>
          do rest <- status_rows allocations items';
          ret ((name, cpu node, memory node, calculate_load_score node, length procs)
                 :: rest)
      end
  end.

Definition _print_node_status (self : ProcessAllocator) : result (list status_row) :=
  status_rows (allocations self) (nodes self).

(** [sum(len(procs) for procs in allocations.values())] of [_generate_report]. *)
Definition total_processes_allocated (allocations : gmap string (list Process)) : nat :=
  sum_list_with (fun kv : string * list Process => length kv.2) (map_to_list allocations).

(** The key findings of [_generate_report]: the maximum latency node, the
    total of allocated processes and the number of nodes. *)
Definition _generate_report (nodes : list (string * Node)) (max_latency_node : string)
           (allocations : gmap string (list Process)) : string * nat * nat :=
  (max_latency_node, total_processes_allocated allocations, length nodes).

(** ** The reference dataset of [LoadBalancer] *)

Definition EdgeA : Node :=
  mkNode "EdgeA" 10 520 0.3 40 4.0 ["RPCCall"; "DataReplication"]%string.

Definition reference_nodes : list (string * Node) :=
  [ ("EdgeA", EdgeA);
    ("EdgeB", mkNode "EdgeB" 14 470 0.5 48 5.0 ["RPCCall"; "Migration"]);
    ("CoreX", mkNode "CoreX" 7 980 0.1 65 8.0 ["TransactionCommit"]);
    ("CoreY", mkNode "CoreY" 9 950 0.2 58 7.0 ["Recovery"; "LoadBalancing"]);
    ("CloudZ", mkNode "CloudZ" 22 1250 0.4 72 16.0 ["Analytics"; "RPCCall"]) ]%string.

Definition P1_Analytics : Process := mkProcess "P1_Analytics" 15 2.0 "Analytics" 3.

Definition _generate_sample_processes : list Process :=
  [ P1_Analytics;
    mkProcess "P2_RPC_Handler" 10 1.5 "RPCCall" 3;
    mkProcess "P3_DataRepl" 12 2.5 "DataReplication" 2;
    mkProcess "P4_Transaction" 18 3.0 "TransactionCommit" 3;
    mkProcess "P5_Recovery" 8 1.0 "Recovery" 2;
    mkProcess "P6_LoadBal" 10 1.5 "LoadBalancing" 2;
    mkProcess "P7_Migration" 14 2.0 "Migration" 1;
    mkProcess "P8_RPC_Handler2" 10 1.5 "RPCCall" 2;
    mkProcess "P9_Analytics2" 12 2.0 "Analytics" 1;
    mkProcess "P10_Monitor" 5 0.5 "Monitoring" 1 ]%string.

(** The allocator of the reference dataset once [P1_Analytics] is on EdgeA. *)
Definition after_P1 : ProcessAllocator :=
  {| nodes := update_node "EdgeA" (commit P1_Analytics) reference_nodes;
     allocations := <["EdgeA"%string := [P1_Analytics]]>
                      (allocations (ProcessAllocator_init reference_nodes)) |}.

(** What a run reports: the outcome lines, and [cpu] and [memory] of the
    nodes at the end. *)
Definition report (r : option (ProcessAllocator * list outcome))
  : option (list (string * option string) * list (string * Z * Q)) :=
  match r with
  | Some (final, log) =>
      Some ((fun o : outcome => (process_id o.1, o.2)) <$> log,
            (fun kv : string * Node => (kv.1, cpu kv.2, Qred (memory kv.2)))
              <$> nodes final)
  | None => None
  end.

(** A workload whose service tag wraps a declared service, in other case. *)
Definition rpc_decorated : Process :=
  mkProcess "PY_RPC" 5 0.5 "edge-rpccall-handler" 1.



(** A workload too large for every node of the reference dataset. *)
Definition P_Oversized : Process := mkProcess "P_Oversized" 60 1.0 "Analytics" 3.

(** A workload whose service tag is a proper part of a declared service. *)
Definition rpc_probe : Process := mkProcess "PX_RPC" 5 0.5 "RPC" 1.

(** ** Service affinity as the specification words it

    The specification describes the affinity test as a substring match in
    either direction.  [spec_service_match] follows those words, to be
    compared with [service_match], which follows the source. *)

Definition spec_service_match (node : Node) (process : Process) : bool :=
  existsb (fun svc => contains (lower (service_type process)) (lower svc)
                      || contains (lower svc) (lower (service_type process)))
          (services node).

Definition spec_placement_score (node : Node) (process : Process) : Q :=
  (calculate_load_score node * 0.5 + inject_Z (latency node) / 30 * 0.3
   + (if spec_service_match node process then 0.0 else 0.2))%Q.

(** ** The printed outcome line

    [allocate_processes] chooses between the placed line and the FAILED line
    with [if allocated:], the truth value of the returned name: [None] and
    the empty string are both false. *)
Definition truthy (allocated : option string) : bool :=
  match allocated with
  | None => false
  | Some best_node_name => negb (String.eqb best_node_name "")
  end.

(** ** Vocabulary of the statements *)

(** An [int] that a double holds exactly and that NumPy keeps as a 64-bit
    integer. *)
Definition small_int (z : Z) : Prop := - 2 ^ 53 < z < 2 ^ 53.

(** A [float] that is a multiple of 1/1024 of magnitude below [2^40]: sums
    and differences of two such values are computed by the doubles of the
    code without rounding. *)
Definition exact_float (q : Q) : Prop :=
  exists n : Z, (q == n # 1024)%Q /\ - 2 ^ 50 < n < 2 ^ 50.

Definition node_in_range (node : Node) : Prop :=
  small_int (cpu node) /\ small_int (latency node) /\ small_int (throughput node)
  /\ exact_float (memory node).

Definition registry_in_range (d : list (string * Node)) : Prop :=
  forall k node, (k, node) ∈ d -> node_in_range node.

Definition process_in_range (process : Process) : Prop :=
  small_int (cpu_requirement process) /\ exact_float (memory_requirement process).

(** The node is within the constants its load score is normalised by. *)
Definition within_norms (node : Node) : Prop :=
  0 <= cpu node <= 100
  /\ (0 <= memory node <= 20)%Q
  /\ 0 <= latency node <= 30.

(** [cpu] and [memory] asked for by a list of workloads. *)
Definition cpu_demand (procs : list Process) : Z :=
  foldr (fun p acc => cpu_requirement p + acc) 0 procs.

Definition memory_demand (procs : list Process) : Q :=
  foldr (fun p acc => (memory_requirement p + acc)%Q) 0%Q procs.

(** The allocation map has exactly the node names as keys. *)
Definition registered (self : ProcessAllocator) : Prop :=
  dom (allocations self) = list_to_set (dict_keys (nodes self)).

(** [p] may be attempted before [q]. *)
Definition higher_first (p q : Process) : Prop := priority q <= priority p.

Definition within_capacity (node : Node) : Prop :=
  cpu node <= 90 /\ (memory node <= 18)%Q.

Definition all_within_capacity (d : list (string * Node)) : Prop :=
  forall k node, (k, node) ∈ d -> within_capacity node.

Definition non_negative (process : Process) : Prop :=
  0 <= cpu_requirement process /\ (0 <= memory_requirement process)%Q.

(** Every workload of the batch is in range and asks for non-negative
    amounts; along a pass over such a batch, from a registry in range, every
    node stays in range. *)
Definition batch_in_range (processes : list Process) : Prop :=
  forall p, p ∈ processes -> process_in_range p /\ non_negative p.

(** Every node of [d] is still present in [d'], with at least the same
    [cpu] and [memory]. *)
Definition nodes_grow (d d' : list (string * Node)) : Prop :=
  forall k node,
    dict_get d k = Some node ->
    exists node', dict_get d' k = Some node'
                  /\ cpu node <= cpu node' /\ (memory node <= memory node')%Q.

(** No node passes the capacity gate for [process]. *)
Definition no_capacity_for (d : list (string * Node)) (process : Process) : Prop :=
  forall k node,
    (k, node) ∈ d ->
    has_capacity node (cpu_requirement process) (memory_requirement process) = false.

Definition same_static (node node' : Node) : Prop :=
  name node' = name node
  /\ latency node' = latency node
  /\ throughput node' = throughput node
  /\ packet_loss node' = packet_loss node
  /\ services node' = services node.

(** Same names in the same order, and the static fields of every node kept. *)
Definition static_preserved (d d' : list (string * Node)) : Prop :=
  dict_keys d' = dict_keys d
  /\ forall k node,
       dict_get d k = Some node ->
       exists node', dict_get d' k = Some node' /\ same_static node node'.

(** Every allocation list of [a] is a prefix of the list under the same name
    in [a']. *)
Definition commitments_kept (a a' : gmap string (list Process)) : Prop :=
  forall k lst, a !! k = Some lst -> exists later, a' !! k = Some (lst ++ later).

(** The workloads the outcome log reports as placed on node [k], in order. *)
Definition placed_on (k : string) (log : list outcome) : list Process :=
  (filter (fun o : outcome => o.2 = Some k) log).*1.

(** The workloads the outcome log reports as failed. *)
Definition unplaced (log : list outcome) : list Process :=
  (filter (fun o : outcome => o.2 = None) log).*1.

(** The workloads the outcome log reports as placed on some node. *)
Definition placed (log : list outcome) : list Process :=
  (filter (fun o : outcome => is_Some o.2) log).*1.

(** Some declared service of the node, lower-cased, occurs inside the
    lower-cased service tag of the workload. *)
Definition service_named_in_tag (node : Node) (process : Process) : Prop :=
  exists svc pre post,
    svc ∈ services node
    /\ lower (service_type process) = pre +:+ lower svc +:+ post.

(** Tactics that settle the range predicates on concrete data. *)
Ltac solve_exact_float :=
  match goal with
  | |- exact_float ?q =>
      let n := eval vm_compute in (Qnum (Qred (q * 1024))) in
      exists n; split; [reflexivity | split; reflexivity]
  end.

Ltac solve_node_in_range :=
  repeat split; try reflexivity; solve_exact_float.

(** * Properties *)

(** ** Substring test *)

Lemma startswith_spec (sub text : string) :
  startswith text sub = true <-> exists post, text = sub +:+ post.
Proof.
  revert text. induction sub as [|a sub IH]; intros text; simpl.
  - split; [intros _; by exists text | reflexivity].
  - destruct text as [|b text].
    + split; [done | intros [post Hpost]; discriminate Hpost].
    + rewrite andb_true_iff, Ascii.eqb_eq, IH. split.
      * intros [-> [post ->]]. by exists post.
      * intros [post Hpost]. injection Hpost as -> ->. eauto.
Qed.

Lemma contains_spec (text sub : string) :
  contains text sub = true <-> exists pre post, text = pre +:+ sub +:+ post.
Proof.
  induction text as [|c text IH]; simpl.
  - rewrite orb_false_r, startswith_spec. split.
    + intros [post Hpost]. by exists ""%string, post.
    + intros [pre [post Hpp]]. destruct pre; [eauto | discriminate Hpp].
  - rewrite orb_true_iff, startswith_spec, IH. split.
    + intros [[post Hpost] | [pre [post Hpp]]].
      * by exists ""%string, post.
      * exists (String c pre), post. simpl. by rewrite Hpp.
    + intros [pre [post Hpp]]. destruct pre as [|a pre]; simpl in Hpp.
      * left. eauto.
      * right. injection Hpp as _ Hpp. eauto.
Qed.

Lemma service_match_spec (node : Node) (process : Process) :
  service_match node process = true <->
  exists svc pre post,
    svc ∈ services node /\
    lower (service_type process) = pre +:+ lower svc +:+ post.
Proof.
  unfold service_match. rewrite existsb_exists. split.
  - intros [x [Hx Hc]]. apply in_map_iff in Hx as [svc [<- Hsvc]].
    apply contains_spec in Hc as [pre [post Hpp]].
    exists svc, pre, post. by rewrite list_elem_of_In.
  - intros [svc [pre [post [Hsvc Hpp]]]]. exists (lower svc). split.
    + apply in_map. by apply list_elem_of_In.
    + apply contains_spec. eauto.
Qed.

(** ** The scenarios of the specification on the reference dataset *)

(** Scenario 1: the high-priority analytics workload goes to EdgeA. *)
Example scenario_1_scores :
  (fun kv : candidate => (kv.1.1, Qred kv.2)) <$> find_candidates reference_nodes P1_Analytics
  = [ ("EdgeA", 7 # 15); ("EdgeB", 3269 # 6000); ("CoreX", 161 # 300);
      ("CoreY", 1063 # 2000); ("CloudZ", 889 # 1500) ]%string%Q.
Proof. reflexivity. Qed.

(** Scenario 2: CoreX at 65 % CPU cannot take 30 % more. *)
Example scenario_2_gate :
  has_capacity (mkNode "CoreX" 7 980 0.1 65 8.0 ["TransactionCommit"%string]) 30 5.0 = false.
Proof. reflexivity. Qed.

(** Scenario 5: an idle node with no latency has load score zero. *)
Example scenario_5_zero :
  (calculate_load_score (mkNode "Idle" 0 0 0 0 0 []) == 0)%Q.
Proof. reflexivity. Qed.

(** The run of [LoadBalancer.run_analysis]: every sample process is placed. *)
Example reference_run :
  report (allocate_processes (ProcessAllocator_init reference_nodes)
                             _generate_sample_processes)
  = Some ([ ("P1_Analytics", Some "EdgeA"); ("P2_RPC_Handler", Some "EdgeA");
            ("P4_Transaction", Some "CoreX"); ("P3_DataRepl", Some "EdgeA");
            ("P5_Recovery", Some "CoreY"); ("P6_LoadBal", Some "CoreY");
            ("P8_RPC_Handler2", Some "EdgeB"); ("P7_Migration", Some "EdgeB");
            ("P9_Analytics2", Some "CloudZ"); ("P10_Monitor", Some "CoreY") ],
          [ ("EdgeA", 77, 10%Q); ("EdgeB", 72, (17 # 2)%Q); ("CoreX", 83, 11%Q);
            ("CoreY", 81, 10%Q); ("CloudZ", 84, 18%Q) ])%string.
Proof. vm_compute. reflexivity. Qed.

(** ** The dictionary of nodes *)

Lemma dict_get_elem_of (d : list (string * Node)) (k : string) (v : Node) :
  dict_get d k = Some v -> (k, v) ∈ d.
Proof.
  induction d as [|[k' v'] d IH]; simpl; [done |].
  destruct (decide (k' = k)) as [-> | Hne].
  - intros [= ->]. apply elem_of_cons. by left.
  - intros Hget. apply elem_of_cons. right. by apply IH.
Qed.

Lemma elem_of_dict_get (d : list (string * Node)) (k : string) (v : Node) :
  NoDup (dict_keys d) -> (k, v) ∈ d -> dict_get d k = Some v.
Proof.
  induction d as [|[k' v'] d IH]; simpl.
  - intros _ Hin. by apply elem_of_nil in Hin.
  - intros [Hnotin Hnd]%NoDup_cons [[= -> ->] | Hin]%elem_of_cons.
    + by rewrite decide_True.
    + destruct (decide (k' = k)) as [-> | Hne]; [| by apply IH].
      exfalso. apply Hnotin. apply list_elem_of_fmap. by exists (k, v).
Qed.

Lemma dict_get_is_Some (d : list (string * Node)) (k : string) :
  k ∈ dict_keys d <-> is_Some (dict_get d k).
Proof.
  induction d as [|[k' v'] d IH]; simpl.
  - split; [by intros ?%elem_of_nil | by intros [? ?]].
  - rewrite elem_of_cons. destruct (decide (k' = k)) as [-> | Hne]; simpl.
    + split; eauto.
    + rewrite <- IH. split; [intros [? | ?]; [congruence | done] | auto].
Qed.

Lemma update_node_keys (key : string) (f : Node -> Node) (d : list (string * Node)) :
  dict_keys (update_node key f d) = dict_keys d.
Proof.
  induction d as [|[k v] d IH]; simpl; [done |].
  destruct (decide (k = key)); simpl; [done | by rewrite IH].
Qed.

Lemma update_node_get (key : string) (f : Node -> Node) (d : list (string * Node))
      (k : string) :
  dict_get (update_node key f d) k
  = if decide (key = k) then f <$> dict_get d k else dict_get d k.
Proof.
  induction d as [|[k' v] d IH]; simpl.
  - by destruct (decide (key = k)).
  - destruct (decide (k' = key)) as [-> | Hne]; simpl.
    + destruct (decide (key = k)); [done | done].
    + destruct (decide (k' = k)) as [-> | Hne'].
      * by rewrite decide_False.
      * apply IH.
Qed.

(** ** The candidate scan and the choice of the minimum *)

Lemma find_candidates_elem_of (items : list (string * Node)) (process : Process)
      (k : string) (node : Node) (score : Q) :
  (k, node, score) ∈ find_candidates items process <->
  (k, node) ∈ items
  /\ has_capacity node (cpu_requirement process) (memory_requirement process) = true
  /\ score = placement_score node process.
Proof.
  induction items as [|[k' v] items IH]; simpl.
  - rewrite !elem_of_nil. tauto.
  - destruct (has_capacity v _ _) eqn:Hcap; rewrite ?elem_of_cons, IH, ?elem_of_cons.
    + split.
      * intros [[= -> -> ->] | (? & ? & ?)]; [auto | tauto].
      * intros ([[= -> ->] | ?] & ? & ->); [by left | right; tauto].
    + split.
      * tauto.
      * intros ([[= -> ->] | ?] & Hc & ?); [congruence | tauto].
Qed.

Lemma find_candidates_nil (items : list (string * Node)) (process : Process) :
  find_candidates items process = [] <->
  forall k node, (k, node) ∈ items ->
    has_capacity node (cpu_requirement process) (memory_requirement process) = false.
Proof.
  split.
  - intros Hnil k node Hin.
    destruct (has_capacity node _ _) eqn:Hcap; [| done].
    assert ((k, node, placement_score node process) ∈ find_candidates items process)
      as Hc by (by apply find_candidates_elem_of).
    rewrite Hnil in Hc. by apply elem_of_nil in Hc.
  - intros Hall.
    destruct (find_candidates items process) as [|[[k node] s] cs] eqn:Hfc; [done |].
    assert ((k, node, s) ∈ find_candidates items process) as Hc
      by (rewrite Hfc; apply elem_of_cons; by left).
    apply find_candidates_elem_of in Hc as (Hin & Hcap & _).
    rewrite (Hall _ _ Hin) in Hcap. discriminate.
Qed.

Lemma score_lt_true (x y : Q) : score_lt x y = true <-> (x < y)%Q.
Proof.
  unfold score_lt. rewrite negb_true_iff, <- not_true_iff_false, Qle_bool_iff.
  split; [apply Qnot_le_lt | apply Qlt_not_le].
Qed.

Lemma score_lt_false (x y : Q) : score_lt x y = false <-> (y <= x)%Q.
Proof. unfold score_lt. by rewrite negb_false_iff, Qle_bool_iff. Qed.

Lemma min_from_elem_of (best : candidate) (rest : list candidate) :
  min_from best rest ∈ best :: rest.
Proof.
  revert best. induction rest as [|c rest IH]; intros best; simpl.
  - apply elem_of_cons. by left.
  - specialize (IH (if score_lt c.2 best.2 then c else best)).
    apply elem_of_cons in IH as [Heq | Hin].
    + rewrite Heq. destruct (score_lt c.2 best.2); set_solver.
    + set_solver.
Qed.

Lemma min_from_le_best (best : candidate) (rest : list candidate) :
  ((min_from best rest).2 <= best.2)%Q.
Proof.
  revert best. induction rest as [|c rest IH]; intros best; simpl; [apply Qle_refl |].
  destruct (score_lt c.2 best.2) eqn:Hlt.
  - apply score_lt_true in Hlt. eapply Qle_trans; [apply IH | by apply Qlt_le_weak].
  - apply IH.
Qed.

Lemma min_from_le (best : candidate) (rest : list candidate) (x : candidate) :
  x ∈ best :: rest -> ((min_from best rest).2 <= x.2)%Q.
Proof.
  revert best. induction rest as [|c rest IH]; intros best.
  - intros ->%list_elem_of_singleton. apply Qle_refl.
  - intros [-> | [-> | Hin]%elem_of_cons]%elem_of_cons; simpl.
    + eapply Qle_trans; [apply min_from_le_best |].
      destruct (score_lt c.2 best.2) eqn:Hlt; [| apply Qle_refl].
      apply score_lt_true in Hlt. by apply Qlt_le_weak.
    + eapply Qle_trans; [apply min_from_le_best |].
      destruct (score_lt c.2 best.2) eqn:Hlt; [apply Qle_refl |].
      by apply score_lt_false in Hlt.
    + apply IH. apply elem_of_cons. by right.
Qed.

(** ** One placement attempt *)

Lemma empty_lists_lookup (ks : list string) (k : string) :
  (list_to_map ((fun name => (name, [])) <$> ks) : gmap string (list Process)) !! k
  = if decide (k ∈ ks) then Some [] else None.
Proof.
  induction ks as [|k' ks IH].
  - rewrite fmap_nil, list_to_map_nil, lookup_empty. done.
  - rewrite fmap_cons, list_to_map_cons.
    destruct (decide (k' = k)) as [-> | Hne].
    + rewrite lookup_insert_eq.
      destruct (decide (k ∈ k :: ks)) as [_ | Hnotin]; [done |].
      exfalso. apply Hnotin, elem_of_cons. by left.
    + rewrite lookup_insert_ne by done. rewrite IH.
      destruct (decide (k ∈ ks)) as [Hin | Hnotin],
               (decide (k ∈ k' :: ks)) as [Hin' | Hnotin']; try done.
      * exfalso. apply Hnotin', elem_of_cons. by right.
      * apply elem_of_cons in Hin' as [-> | Hin']; done.
Qed.

Lemma init_lookup (d : list (string * Node)) (k : string) :
  allocations (ProcessAllocator_init d) !! k
  = if decide (k ∈ dict_keys d) then Some [] else None.
Proof. apply empty_lists_lookup. Qed.

Lemma init_registered (d : list (string * Node)) :
  registered (ProcessAllocator_init d).
Proof.
  unfold registered. apply set_eq. intros k.
  rewrite elem_of_dom, init_lookup, elem_of_list_to_set. simpl.
  destruct (decide (k ∈ dict_keys d)); split; try done.
Qed.

Lemma allocate_single_inv (self self' : ProcessAllocator) (process : Process)
      (r : option string) :
  _allocate_single_process self process = Some (self', r) ->
  (r = None /\ self' = self /\ find_candidates (nodes self) process = [])
  \/ (exists best best_node lst,
        r = Some best
        /\ (best, best_node) ∈ nodes self
        /\ has_capacity best_node (cpu_requirement process)
                        (memory_requirement process) = true
        /\ (forall k node, (k, node) ∈ nodes self ->
              has_capacity node (cpu_requirement process)
                           (memory_requirement process) = true ->
              (placement_score best_node process <= placement_score node process)%Q)
        /\ allocations self !! best = Some lst
        /\ self' = {| nodes := update_node best (commit process) (nodes self);
                      allocations := <[best := lst ++ [process]]> (allocations self) |}).
Proof.
  unfold _allocate_single_process.
  destruct (find_candidates (nodes self) process) as [|c cs] eqn:Hfc.
  - intros [= <- <-]. by left.
  - destruct (min_from c cs) as [[best best_node] s] eqn:Hmin.
    destruct (allocations self !! best) as [lst|] eqn:Hlk; simpl; [| done].
    intros [= <- <-]. right. exists best, best_node, lst.
    pose proof (min_from_elem_of c cs) as Hin. rewrite Hmin, <- Hfc in Hin.
    apply find_candidates_elem_of in Hin as (Hin & Hcap & ->).
    repeat split; try done.
    intros k node Hk Hc.
    assert ((k, node, placement_score node process) ∈ c :: cs) as Hcand
      by (rewrite <- Hfc; by apply find_candidates_elem_of).
    apply (min_from_le c cs) in Hcand. by rewrite Hmin in Hcand.
Qed.

Lemma allocate_single_total (self : ProcessAllocator) (process : Process) :
  registered self ->
  exists self' r, _allocate_single_process self process = Some (self', r).
Proof.
  intros Hreg. unfold _allocate_single_process.
  destruct (find_candidates (nodes self) process) as [|c cs] eqn:Hfc; [eauto |].
  destruct (min_from c cs) as [[best best_node] s] eqn:Hmin.
  pose proof (min_from_elem_of c cs) as Hin. rewrite Hmin, <- Hfc in Hin.
  apply find_candidates_elem_of in Hin as (Hin & _).
  assert (best ∈ dom (allocations self)) as [lst Hlst]%elem_of_dom.
  { rewrite Hreg, elem_of_list_to_set. apply list_elem_of_fmap. by exists (best, best_node). }
  rewrite Hlst. simpl. eauto.
Qed.

Lemma allocate_single_registered (self self' : ProcessAllocator) (process : Process)
      (r : option string) :
  _allocate_single_process self process = Some (self', r) ->
  registered self -> registered self'.
Proof.
  intros [(_ & -> & _) | (best & best_node & lst & _ & _ & _ & _ & Hlk & ->)]%allocate_single_inv;
    [done |].
  unfold registered. simpl. intros Hreg.
  rewrite update_node_keys, dom_insert_L, <- Hreg.
  apply elem_of_dom_2 in Hlk. apply set_eq. intros x.
  rewrite elem_of_union, elem_of_singleton. split; [intros [-> | ?]; done | auto].
Qed.

Lemma allocate_single_keys (self self' : ProcessAllocator) (process : Process)
      (r : option string) :
  _allocate_single_process self process = Some (self', r) ->
  dict_keys (nodes self') = dict_keys (nodes self).
Proof.
  intros [(_ & -> & _) | (best & best_node & lst & _ & _ & _ & _ & _ & ->)]%allocate_single_inv;
    [done | apply update_node_keys].
Qed.

(** ** The loop over the sorted batch *)

Lemma allocate_loop_cons (self : ProcessAllocator) (process : Process)
      (rest : list Process) (self1 : ProcessAllocator) (allocated : option string) :
  _allocate_single_process self process = Some (self1, allocated) ->
  allocate_loop self (process :: rest)
  = '(self2, log) ← allocate_loop self1 rest; Some (self2, (process, allocated) :: log).
Proof. intros Hstep. simpl. by rewrite Hstep. Qed.

Lemma allocate_loop_total (self : ProcessAllocator) (ps : list Process) :
  registered self ->
  exists self' log, allocate_loop self ps = Some (self', log)
                    /\ registered self'
                    /\ log.*1 = ps
                    /\ dict_keys (nodes self') = dict_keys (nodes self).
Proof.
  revert self. induction ps as [|p ps IH]; intros self Hreg.
  - exists self, []. by simpl.
  - destruct (allocate_single_total self p Hreg) as (self1 & r & Hstep).
    pose proof (allocate_single_registered _ _ _ _ Hstep Hreg) as Hreg1.
    destruct (IH self1 Hreg1) as (self2 & log & Hloop & Hreg2 & Hlog & Hkeys).
    exists self2, ((p, r) :: log).
    rewrite (allocate_loop_cons _ _ _ _ _ Hstep), Hloop.
    split; [done |]. split; [done |]. split.
    + rewrite fmap_cons. simpl. by rewrite Hlog.
    + rewrite Hkeys. by eapply allocate_single_keys.
Qed.

Lemma allocate_loop_app (self : ProcessAllocator) (ps1 ps2 : list Process) :
  allocate_loop self (ps1 ++ ps2)
  = '(self1, log1) ← allocate_loop self ps1;
    '(self2, log2) ← allocate_loop self1 ps2;
    Some (self2, log1 ++ log2).
Proof.
  revert self. induction ps1 as [|p ps1 IH]; intros self; simpl.
  - destruct (allocate_loop self ps2) as [[self2 log2]|]; done.
  - destruct (_allocate_single_process self p) as [[self1 r]|]; simpl; [| done].
    rewrite IH. destruct (allocate_loop self1 ps1) as [[self1' log1]|]; simpl; [| done].
    destruct (allocate_loop self1' ps2) as [[self2 log2]|]; done.
Qed.

(** ** The priority sort *)

Lemma insert_by_priority_perm (p : Process) (l : list Process) :
  insert_by_priority p l ≡ₚ p :: l.
Proof.
  induction l as [|q l IH]; simpl; [done |].
  destruct (priority q <=? priority p); [done |].
  rewrite IH. apply Permutation_swap.
Qed.

Lemma sorted_by_priority_perm (l : list Process) : sorted_by_priority l ≡ₚ l.
Proof.
  induction l as [|p l IH]; simpl; [done |].
  rewrite insert_by_priority_perm. by rewrite IH.
Qed.

Lemma insert_by_priority_sorted (p : Process) (l : list Process) :
  StronglySorted higher_first l -> StronglySorted higher_first (insert_by_priority p l).
Proof.
  induction l as [|q l IH]; simpl; intros Hs.
  - apply StronglySorted_cons. split; [apply Forall_nil_2 | done].
  - apply StronglySorted_cons in Hs as [Hq Hs].
    destruct (priority q <=? priority p) eqn:Hle.
    + apply Z.leb_le in Hle. apply StronglySorted_cons. split.
      * apply Forall_cons. split; [done |].
        eapply Forall_impl; [exact Hq |]. unfold higher_first. intros x Hx. lia.
      * apply StronglySorted_cons. by split.
    + apply Z.leb_gt in Hle. apply StronglySorted_cons. split; [| by apply IH].
      rewrite insert_by_priority_perm. apply Forall_cons. split; [| done].
      unfold higher_first. lia.
Qed.

Lemma sorted_by_priority_sorted (l : list Process) :
  StronglySorted higher_first (sorted_by_priority l).
Proof.
  induction l as [|p l IH]; simpl; [constructor |].
  by apply insert_by_priority_sorted.
Qed.

Lemma insert_by_priority_filter (k : Z) (p : Process) (l : list Process) :
  filter (fun x => priority x = k) (insert_by_priority p l)
  = filter (fun x => priority x = k) (p :: l).
Proof.
  induction l as [|q l IH]; simpl; [done |].
  destruct (priority q <=? priority p) eqn:Hle; [done |].
  apply Z.leb_gt in Hle.
  destruct (decide (priority q = k)) as [Hq | Hq].
  - rewrite (filter_cons_True _ q) by done. rewrite IH.
    assert (priority p <> k) as Hp by lia.
    rewrite !(filter_cons_False _ p) by done.
    by rewrite (filter_cons_True _ q).
  - rewrite (filter_cons_False _ q) by done. rewrite IH.
    destruct (decide (priority p = k)) as [Hp | Hp].
    + rewrite !(filter_cons_True _ p) by done. by rewrite (filter_cons_False _ q).
    + rewrite !(filter_cons_False _ p) by done. by rewrite (filter_cons_False _ q).
Qed.

Lemma sorted_by_priority_stable (k : Z) (l : list Process) :
  filter (fun x => priority x = k) (sorted_by_priority l)
  = filter (fun x => priority x = k) l.
Proof.
  induction l as [|p l IH]; simpl; [done |].
  rewrite insert_by_priority_filter.
  destruct (decide (priority p = k)) as [Hp | Hp].
  - rewrite !(filter_cons_True _ p) by done. by rewrite IH.
  - rewrite !(filter_cons_False _ p) by done. by rewrite IH.
Qed.

Lemma filter_priority_cons (k : Z) (x : Process) (l : list Process) :
  filter (fun y => priority y = k) (x :: l)
  = if decide (priority x = k) then x :: filter (fun y => priority y = k) l
    else filter (fun y => priority y = k) l.
Proof. by rewrite filter_cons. Qed.

Lemma head_priority_le (x y : Process) (l1 l2 : list Process) :
  Forall (higher_first y) l2 ->
  filter (fun z => priority z = priority x) (x :: l1)
  = filter (fun z => priority z = priority x) (y :: l2) ->
  priority x <= priority y.
Proof.
  intros Hy Hf.
  assert (x ∈ y :: l2) as [-> | Hin]%elem_of_cons.
  { eapply (proj1 (list_elem_of_filter _ _ _)). rewrite <- Hf.
    rewrite filter_priority_cons, decide_True by done. apply elem_of_cons. by left. }
  - lia.
  - rewrite Forall_forall in Hy. by apply Hy.
Qed.

(** A list sorted by descending priority is determined by its sub-lists of
    equal priority: there is one stable descending sort of a batch, whatever
    algorithm computes it. *)
Lemma stable_sort_unique (l1 l2 : list Process) :
  StronglySorted higher_first l1 ->
  StronglySorted higher_first l2 ->
  (forall k, filter (fun x => priority x = k) l1
             = filter (fun x => priority x = k) l2) ->
  l1 = l2.
Proof.
  revert l2. induction l1 as [|x l1 IH]; intros l2 Hs1 Hs2 Hf.
  - destruct l2 as [|y l2]; [done |].
    specialize (Hf (priority y)). rewrite filter_priority_cons, decide_True in Hf by done.
    discriminate Hf.
  - destruct l2 as [|y l2].
    { specialize (Hf (priority x)). rewrite filter_priority_cons, decide_True in Hf by done.
      discriminate Hf. }
    apply StronglySorted_cons in Hs1 as [Hx Hs1].
    apply StronglySorted_cons in Hs2 as [Hy Hs2].
    assert (priority x = priority y) as Hxy.
    { pose proof (head_priority_le x y l1 l2 Hy (Hf (priority x))).
      pose proof (head_priority_le y x l2 l1 Hx (eq_sym (Hf (priority y)))). lia. }
    pose proof (Hf (priority x)) as Hhead.
    rewrite !filter_priority_cons, decide_True, decide_True in Hhead by done.
    injection Hhead as -> Htail. f_equal. apply IH; [done | done |].
    intros k. destruct (decide (priority y = k)) as [<- | Hne]; [done |].
    specialize (Hf k). by rewrite !filter_priority_cons, !decide_False in Hf by done.
Qed.

(** So Python's [sorted(..., reverse=True)], a stable sort by descending
    key, returns [sorted_by_priority]. *)
Lemma sorted_by_priority_unique (l l' : list Process) :
  StronglySorted higher_first l' ->
  (forall k, filter (fun x => priority x = k) l'
             = filter (fun x => priority x = k) l) ->
  l' = sorted_by_priority l.
Proof.
  intros Hs Hf. apply stable_sort_unique; [done | apply sorted_by_priority_sorted |].
  intros k. by rewrite Hf, sorted_by_priority_stable.
Qed.

Lemma sorted_lookup (l : list Process) :
  StronglySorted higher_first l ->
  forall (i j : nat) (p q : Process),
    (i < j)%nat -> l !! i = Some p -> l !! j = Some q -> priority q <= priority p.
Proof.
  induction l as [|x l IH]; intros Hs i j p q Hij Hi Hj; [done |].
  apply StronglySorted_cons in Hs as [Hx Hs].
  destruct j as [|j]; [lia |]. simpl in Hj.
  destruct i as [|i]; simpl in Hi.
  - injection Hi as ->. rewrite Forall_forall in Hx.
    apply Hx. by eapply list_elem_of_lookup_2.
  - eapply (IH Hs i j); [lia | done | done].
Qed.

(** ** Reasoning along the loop *)

Section LoopInvariant.

Variable P : ProcessAllocator -> Prop.
Variable ps : list Process.
Hypothesis P_step :
  forall self process self' r,
    process ∈ ps -> P self ->
    _allocate_single_process self process = Some (self', r) -> P self'.

Lemma allocate_loop_invariant (self self' : ProcessAllocator) (log : list outcome) :
  allocate_loop self ps = Some (self', log) -> P self -> P self'.
Proof.
  revert P_step self self' log.
  induction ps as [|p ps' IH]; intros Hstep self self' log; simpl.
  - by intros [= <- <-].
  - destruct (_allocate_single_process self p) as [[self1 r]|] eqn:Hp; simpl; [| done].
    destruct (allocate_loop self1 ps') as [[self2 log2]|] eqn:Hps; simpl; [| done].
    intros [= <- <-] HP. eapply IH; [| exact Hps |].
    + intros s q s' r' Hq. apply Hstep. apply elem_of_cons. by right.
    + eapply Hstep; [| exact HP | exact Hp]. apply elem_of_cons. by left.
Qed.

End LoopInvariant.

Lemma allocate_loop_keys (ps : list Process) (self self' : ProcessAllocator)
      (log : list outcome) :
  allocate_loop self ps = Some (self', log) ->
  dict_keys (nodes self') = dict_keys (nodes self).
Proof.
  intros Hloop.
  apply (allocate_loop_invariant
           (fun s => dict_keys (nodes s) = dict_keys (nodes self))) in Hloop; [done | | done].
  intros s p s' r _ Hs Hstep. rewrite <- Hs. by eapply allocate_single_keys.
Qed.

(** ** Capacity *)

Lemma has_capacity_true (node : Node) (cpu_needed : Z) (memory_needed : Q) :
  has_capacity node cpu_needed memory_needed = true <->
  cpu node + cpu_needed <= 90 /\ (memory node + memory_needed <= 18)%Q.
Proof. unfold has_capacity. by rewrite andb_true_iff, Z.leb_le, Qle_bool_iff. Qed.

Lemma commit_within_capacity (node : Node) (process : Process) :
  has_capacity node (cpu_requirement process) (memory_requirement process) = true ->
  within_capacity (commit process node).
Proof. intros Hcap. by apply has_capacity_true in Hcap. Qed.

Lemma allocate_single_within_capacity (self self' : ProcessAllocator)
      (process : Process) (r : option string) :
  NoDup (dict_keys (nodes self)) ->
  _allocate_single_process self process = Some (self', r) ->
  all_within_capacity (nodes self) -> all_within_capacity (nodes self').
Proof.
  intros Hnd [(_ & -> & _) | (best & best_node & lst & _ & Hin & Hcap & _ & _ & ->)]%allocate_single_inv;
    [done |].
  simpl. intros Hall k node Hk.
  apply elem_of_dict_get in Hk; [| by rewrite update_node_keys].
  rewrite update_node_get in Hk. destruct (decide (best = k)) as [<- | Hne].
  - rewrite (elem_of_dict_get _ _ _ Hnd Hin) in Hk. injection Hk as <-.
    by apply commit_within_capacity.
  - apply dict_get_elem_of in Hk. by eapply Hall.
Qed.

Lemma allocate_loop_within_capacity (ps : list Process) (self self' : ProcessAllocator)
      (log : list outcome) :
  NoDup (dict_keys (nodes self)) ->
  allocate_loop self ps = Some (self', log) ->
  all_within_capacity (nodes self) -> all_within_capacity (nodes self').
Proof.
  intros Hnd Hloop Hall.
  apply (allocate_loop_invariant
           (fun s => NoDup (dict_keys (nodes s)) /\ all_within_capacity (nodes s)))
    in Hloop; [by destruct Hloop | | done].
  intros s p s' r _ [Hs1 Hs2] Hstep. split.
  - by rewrite (allocate_single_keys _ _ _ _ Hstep).
  - by eapply allocate_single_within_capacity.
Qed.

(** C1 (capacity invariant).  Start from a registry with distinct names in
    which every node has [cpu <= 90] and [memory <= 18].  Then the state
    reached after any number of workloads of the priority-sorted batch have
    been handled (so after every single commit, and at the end of the pass)
    exists, and every node in it still has [cpu <= 90] and [memory <= 18].
    The non-negativity of the requirements that the claim assumes is not
    needed: the gate is evaluated on the very sums that are committed. *)
Theorem C1_capacity_invariant (d : list (string * Node)) (processes : list Process) :
  NoDup (dict_keys d) ->
  all_within_capacity d ->
  forall attempted pending,
    sorted_by_priority processes = attempted ++ pending ->
    exists self' log,
      allocate_loop (ProcessAllocator_init d) attempted = Some (self', log)
      /\ all_within_capacity (nodes self').
Proof.
  intros Hnd Hall attempted pending _.
  destruct (allocate_loop_total (ProcessAllocator_init d) attempted (init_registered d))
    as (self' & log & Hloop & _).
  exists self', log. split; [done |].
  by eapply (allocate_loop_within_capacity attempted (ProcessAllocator_init d)).
Qed.

Lemma reference_nodes_NoDup : NoDup (dict_keys reference_nodes).
Proof. apply NoDup_ListNoDup. repeat constructor; simpl; intuition discriminate. Defined.

Lemma reference_nodes_within_capacity : all_within_capacity reference_nodes.
Proof.
  intros k node Hin. apply list_elem_of_In in Hin. simpl in Hin.
  repeat (destruct Hin as [[= <- <-] | Hin]; [split; [simpl; lia | by vm_compute] |]).
  destruct Hin.
Defined.

Lemma C1_capacity_invariant_witness :
  exists self' log,
    allocate_loop (ProcessAllocator_init reference_nodes)
                  (sorted_by_priority _generate_sample_processes) = Some (self', log)
    /\ all_within_capacity (nodes self').
Proof.
  apply (C1_capacity_invariant reference_nodes _generate_sample_processes
           reference_nodes_NoDup reference_nodes_within_capacity
           (sorted_by_priority _generate_sample_processes) []).
  by rewrite app_nil_r.
Defined.

(** ** Greedy choice *)

Lemma allocate_single_placed (self : ProcessAllocator) (process : Process)
      (c : candidate) (cs : list candidate) (lst : list Process) :
  find_candidates (nodes self) process = c :: cs ->
  allocations self !! (min_from c cs).1.1 = Some lst ->
  _allocate_single_process self process
  = Some ({| nodes := update_node (min_from c cs).1.1 (commit process) (nodes self);
             allocations := <[(min_from c cs).1.1 := lst ++ [process]]> (allocations self) |},
          Some (min_from c cs).1.1).
Proof.
  intros Hfc Hlk. unfold _allocate_single_process. rewrite Hfc.
  destruct (min_from c cs) as [[best best_node] s]. simpl in *. by rewrite Hlk.
Qed.

(** C3 (greedy minimality).  Whenever a placement attempt puts the workload
    on the node named [best], that node passes the capacity gate and its
    placement score, computed on the node states the attempt started from,
    is less than or equal to the score of every node of the registry that
    passes the capacity gate for this workload. *)
Theorem C3_greedy_minimality (self self' : ProcessAllocator) (process : Process)
        (best : string) :
  NoDup (dict_keys (nodes self)) ->
  _allocate_single_process self process = Some (self', Some best) ->
  exists best_node,
    dict_get (nodes self) best = Some best_node
    /\ has_capacity best_node (cpu_requirement process)
                    (memory_requirement process) = true
    /\ forall k node,
         (k, node) ∈ nodes self ->
         has_capacity node (cpu_requirement process)
                      (memory_requirement process) = true ->
         (placement_score best_node process <= placement_score node process)%Q.
Proof.
  intros Hnd [(Hr & _) | (b & best_node & lst & [= <-] & Hin & Hcap & Hmin & _)]%allocate_single_inv;
    [done |].
  exists best_node. split; [by apply elem_of_dict_get | done].
Qed.

Lemma P1_Analytics_placed :
  _allocate_single_process (ProcessAllocator_init reference_nodes) P1_Analytics
  = Some ({| nodes := update_node "EdgeA" (commit P1_Analytics) reference_nodes;
             allocations := <["EdgeA"%string := [P1_Analytics]]>
                              (allocations (ProcessAllocator_init reference_nodes)) |},
          Some "EdgeA"%string).
Proof.
  apply (allocate_single_placed (ProcessAllocator_init reference_nodes) P1_Analytics
           ("EdgeA"%string, EdgeA, placement_score EdgeA P1_Analytics)
           (find_candidates (tail reference_nodes) P1_Analytics) []).
  - reflexivity.
  - rewrite init_lookup. reflexivity.
Defined.

Lemma C3_greedy_minimality_witness :
  exists best_node,
    dict_get reference_nodes "EdgeA" = Some best_node
    /\ has_capacity best_node 15 2.0 = true
    /\ forall k node,
         (k, node) ∈ reference_nodes ->
         has_capacity node 15 2.0 = true ->
         (placement_score best_node P1_Analytics <= placement_score node P1_Analytics)%Q.
Proof.
  exact (C3_greedy_minimality (ProcessAllocator_init reference_nodes) _ P1_Analytics
           "EdgeA" reference_nodes_NoDup P1_Analytics_placed).
Defined.

(** ** Monotonic commit *)

Lemma nodes_grow_refl (d : list (string * Node)) : nodes_grow d d.
Proof. intros k node Hk. exists node. split; [done |]. split; [lia | apply Qle_refl]. Qed.

Lemma nodes_grow_trans (d1 d2 d3 : list (string * Node)) :
  nodes_grow d1 d2 -> nodes_grow d2 d3 -> nodes_grow d1 d3.
Proof.
  intros H12 H23 k node Hk.
  destruct (H12 k node Hk) as (node2 & Hk2 & Hc2 & Hm2).
  destruct (H23 k node2 Hk2) as (node3 & Hk3 & Hc3 & Hm3).
  exists node3. split; [done |]. split; [lia | by eapply Qle_trans].
Qed.

Lemma allocate_single_grow (self self' : ProcessAllocator) (process : Process)
      (r : option string) :
  non_negative process ->
  _allocate_single_process self process = Some (self', r) ->
  nodes_grow (nodes self) (nodes self').
Proof.
  intros [Hcpu Hmem]
    [(_ & -> & _) | (best & best_node & lst & _ & _ & _ & _ & _ & ->)]%allocate_single_inv;
    [apply nodes_grow_refl |].
  simpl. intros k node Hk. rewrite update_node_get, Hk.
  destruct (decide (best = k)) as [_ | _].
  - exists (commit process node). split; [done |]. simpl. split; [lia | lra].
  - exists node. split; [done |]. split; [lia | apply Qle_refl].
Qed.

Lemma allocate_loop_grow (ps : list Process) (self self' : ProcessAllocator)
      (log : list outcome) :
  (forall p, p ∈ ps -> non_negative p) ->
  allocate_loop self ps = Some (self', log) ->
  nodes_grow (nodes self) (nodes self').
Proof.
  intros Hnn Hloop.
  apply (allocate_loop_invariant (fun s => nodes_grow (nodes self) (nodes s)) ps)
    in Hloop; [done | | apply nodes_grow_refl].
  intros s p s' r Hp Hs Hstep. eapply nodes_grow_trans; [exact Hs |].
  eapply allocate_single_grow; [by apply Hnn | exact Hstep].
Qed.

(** C7 (monotonic commit).  When every workload of the batch has
    non-negative CPU and memory requirements, handling any one workload of
    the priority-sorted batch leaves every node with [cpu] and [memory]
    greater than or equal to the values it had just before that workload,
    and the whole pass leaves every node with at least its initial values. *)
Theorem C7_monotonic_commit (d : list (string * Node)) (processes : list Process) :
  (forall p, p ∈ processes -> non_negative p) ->
  (forall attempted process pending,
      sorted_by_priority processes = attempted ++ process :: pending ->
      exists before log after r,
        allocate_loop (ProcessAllocator_init d) attempted = Some (before, log)
        /\ _allocate_single_process before process = Some (after, r)
        /\ nodes_grow (nodes before) (nodes after))
  /\ (exists final log,
        allocate_processes (ProcessAllocator_init d) processes = Some (final, log)
        /\ nodes_grow d (nodes final)).
Proof.
  intros Hnn.
  assert (forall p, p ∈ sorted_by_priority processes -> non_negative p) as Hnn'.
  { intros p Hp. apply Hnn. by rewrite <- (sorted_by_priority_perm processes). }
  split.
  - intros attempted process pending Hsplit.
    destruct (allocate_loop_total (ProcessAllocator_init d) attempted (init_registered d))
      as (before & log & Hloop & Hreg & _).
    destruct (allocate_single_total before process Hreg) as (after & r & Hstep).
    exists before, log, after, r. split; [done |]. split; [done |].
    eapply allocate_single_grow; [| exact Hstep].
    apply Hnn'. rewrite Hsplit. apply elem_of_app. right. apply elem_of_cons. by left.
  - destruct (allocate_loop_total (ProcessAllocator_init d) (sorted_by_priority processes)
                (init_registered d)) as (final & log & Hloop & _).
    exists final, log. split; [done |].
    by apply (allocate_loop_grow _ _ _ _ Hnn' Hloop).
Qed.

Lemma sample_processes_non_negative :
  forall p, p ∈ _generate_sample_processes -> non_negative p.
Proof.
  intros p Hin. apply list_elem_of_In in Hin. simpl in Hin.
  repeat (destruct Hin as [<- | Hin]; [split; [simpl; lia | by vm_compute] |]).
  destruct Hin.
Defined.

Lemma C7_monotonic_commit_witness :
  (forall attempted process pending,
      sorted_by_priority _generate_sample_processes = attempted ++ process :: pending ->
      exists before log after r,
        allocate_loop (ProcessAllocator_init reference_nodes) attempted = Some (before, log)
        /\ _allocate_single_process before process = Some (after, r)
        /\ nodes_grow (nodes before) (nodes after))
  /\ (exists final log,
        allocate_processes (ProcessAllocator_init reference_nodes)
                           _generate_sample_processes = Some (final, log)
        /\ nodes_grow reference_nodes (nodes final)).
Proof.
  exact (C7_monotonic_commit reference_nodes _generate_sample_processes
           sample_processes_non_negative).
Defined.

(** ** Placement failure *)





(** ** Frame *)

Lemma same_static_refl (node : Node) : same_static node node.
Proof. by repeat split. Qed.

Lemma same_static_trans (n1 n2 n3 : Node) :
  same_static n1 n2 -> same_static n2 n3 -> same_static n1 n3.
Proof. unfold same_static. intros (?&?&?&?&?) (?&?&?&?&?). repeat split; congruence. Qed.

Lemma static_preserved_refl (d : list (string * Node)) : static_preserved d d.
Proof.
  split; [done |]. intros k node Hk. exists node. split; [done | apply same_static_refl].
Qed.

Lemma static_preserved_trans (d1 d2 d3 : list (string * Node)) :
  static_preserved d1 d2 -> static_preserved d2 d3 -> static_preserved d1 d3.
Proof.
  intros [Hk12 H12] [Hk23 H23]. split; [congruence |].
  intros k node Hk.
  destruct (H12 k node Hk) as (node2 & Hk2 & Hs2).
  destruct (H23 k node2 Hk2) as (node3 & Hk3 & Hs3).
  exists node3. split; [done | by eapply same_static_trans].
Qed.

Lemma commitments_kept_refl (a : gmap string (list Process)) : commitments_kept a a.
Proof. intros k lst Hk. exists []. by rewrite app_nil_r. Qed.

Lemma commitments_kept_trans (a1 a2 a3 : gmap string (list Process)) :
  commitments_kept a1 a2 -> commitments_kept a2 a3 -> commitments_kept a1 a3.
Proof.
  intros H12 H23 k lst Hk.
  destruct (H12 k lst Hk) as (l2 & Hk2).
  destruct (H23 k _ Hk2) as (l3 & Hk3).
  exists (l2 ++ l3). by rewrite app_assoc.
Qed.

Lemma allocate_single_frame (self self' : ProcessAllocator) (process : Process)
      (best : string) :
  _allocate_single_process self process = Some (self', Some best) ->
  exists best_node lst,
    dict_get (nodes self) best = Some best_node
    /\ allocations self !! best = Some lst
    /\ dict_get (nodes self') best = Some (commit process best_node)
    /\ allocations self' !! best = Some (lst ++ [process])
    /\ (forall k, k <> best ->
          dict_get (nodes self') k = dict_get (nodes self) k
          /\ allocations self' !! k = allocations self !! k)
    /\ dict_keys (nodes self') = dict_keys (nodes self).
Proof.
  intros [(Hr & _) | (b & cand & lst & [= <-] & Hin & _ & _ & Hlk & ->)]%allocate_single_inv;
    [done |].
  assert (is_Some (dict_get (nodes self) best)) as [best_node Hget].
  { apply dict_get_is_Some. apply list_elem_of_fmap. by exists (best, cand). }
  exists best_node, lst. simpl. split; [done |]. split; [done |]. split.
  { by rewrite update_node_get, decide_True, Hget. }
  split; [apply lookup_insert_eq |]. split; [| apply update_node_keys].
  intros k Hne. split.
  - by rewrite update_node_get, decide_False.
  - by apply lookup_insert_ne.
Qed.

Lemma allocate_single_static (self self' : ProcessAllocator) (process : Process)
      (r : option string) :
  _allocate_single_process self process = Some (self', r) ->
  static_preserved (nodes self) (nodes self')
  /\ commitments_kept (allocations self) (allocations self').
Proof.
  intros Hstep. destruct r as [best|].
  - destruct (allocate_single_frame _ _ _ _ Hstep)
      as (best_node & lst & Hget & Hlk & Hget' & Hlk' & Hothers & Hkeys).
    split; [split; [done |] |].
    + intros k node Hk. destruct (decide (k = best)) as [-> | Hne].
      * exists (commit process best_node). split; [done |].
        rewrite Hget in Hk. injection Hk as <-. by repeat split.
      * exists node. destruct (Hothers k Hne) as [-> _]. split; [done | apply same_static_refl].
    + intros k l Hk. destruct (decide (k = best)) as [-> | Hne].
      * exists [process]. rewrite Hlk in Hk. by injection Hk as <-.
      * exists []. destruct (Hothers k Hne) as [_ ->]. by rewrite app_nil_r.
  - apply allocate_single_inv in Hstep as [(_ & -> & _) | (b & ? & ? & [=] & _)].
    split; [apply static_preserved_refl | apply commitments_kept_refl].
Qed.

(** C6 (frame, no retroactive change).  A successful placement on the node
    named [best] adds the workload's requirements to that node's [cpu] and
    [memory], leaves its [name], [latency], [throughput], [packet_loss] and
    [services] as they were, appends exactly this workload to the allocation
    list of [best], and leaves every other node and every other allocation
    list untouched; no node is added, removed or reordered.  Along any run of
    the loop, every node keeps its five static fields, and every allocation
    list that existed before the run is a prefix of the list found under the
    same name after it: later placements only append. *)
Theorem C6_frame (self : ProcessAllocator) :
  (forall process self' best,
      _allocate_single_process self process = Some (self', Some best) ->
      exists best_node best_node' lst,
        dict_get (nodes self) best = Some best_node
        /\ dict_get (nodes self') best = Some best_node'
        /\ cpu best_node' = cpu best_node + cpu_requirement process
        /\ memory best_node' = (memory best_node + memory_requirement process)%Q
        /\ same_static best_node best_node'
        /\ allocations self !! best = Some lst
        /\ allocations self' !! best = Some (lst ++ [process])
        /\ (forall k, k <> best ->
              dict_get (nodes self') k = dict_get (nodes self) k
              /\ allocations self' !! k = allocations self !! k)
        /\ dict_keys (nodes self') = dict_keys (nodes self))
  /\ (forall ps final log,
        allocate_loop self ps = Some (final, log) ->
        static_preserved (nodes self) (nodes final)
        /\ commitments_kept (allocations self) (allocations final)).
Proof.
  split.
  - intros process self' best Hstep.
    destruct (allocate_single_frame _ _ _ _ Hstep)
      as (best_node & lst & Hget & Hlk & Hget' & Hlk' & Hothers & Hkeys).
    exists best_node, (commit process best_node), lst.
    repeat (split; [done |]). done.
  - intros ps final log Hloop.
    apply (allocate_loop_invariant
             (fun s => static_preserved (nodes self) (nodes s)
                       /\ commitments_kept (allocations self) (allocations s)) ps)
      in Hloop; [done | | split; [apply static_preserved_refl | apply commitments_kept_refl]].
    intros s p s' r _ [Hs1 Hs2] Hstep.
    destruct (allocate_single_static _ _ _ _ Hstep) as [Hs1' Hs2'].
    split; [by eapply static_preserved_trans | by eapply commitments_kept_trans].
Qed.

Lemma P1_Analytics_loop :
  allocate_loop (ProcessAllocator_init reference_nodes) [P1_Analytics]
  = Some (after_P1, [(P1_Analytics, Some "EdgeA"%string)]).
Proof.
  by rewrite (allocate_loop_cons _ _ _ _ _ P1_Analytics_placed).
Defined.

Lemma C6_frame_witness :
  (exists best_node best_node' lst,
      dict_get reference_nodes "EdgeA" = Some best_node
      /\ dict_get (nodes after_P1) "EdgeA" = Some best_node'
      /\ cpu best_node' = cpu best_node + 15
      /\ memory best_node' = (memory best_node + 2.0)%Q
      /\ same_static best_node best_node'
      /\ allocations (ProcessAllocator_init reference_nodes) !! "EdgeA"%string = Some lst
      /\ allocations after_P1 !! "EdgeA"%string = Some (lst ++ [P1_Analytics])
      /\ (forall k, k <> "EdgeA"%string ->
            dict_get (nodes after_P1) k = dict_get reference_nodes k
            /\ allocations after_P1 !! k
               = allocations (ProcessAllocator_init reference_nodes) !! k)
      /\ dict_keys (nodes after_P1) = dict_keys reference_nodes)
  /\ static_preserved reference_nodes (nodes after_P1)
  /\ commitments_kept (allocations (ProcessAllocator_init reference_nodes))
                      (allocations after_P1).
Proof.
  split.
  - exact (proj1 (C6_frame (ProcessAllocator_init reference_nodes))
             P1_Analytics after_P1 "EdgeA"%string P1_Analytics_placed).
  - exact (proj2 (C6_frame (ProcessAllocator_init reference_nodes))
             [P1_Analytics] after_P1 _ P1_Analytics_loop).
Defined.

(** ** What the allocation lists hold *)

Lemma placed_on_cons (k : string) (p : Process) (r : option string) (log : list outcome) :
  placed_on k ((p, r) :: log)
  = if decide (r = Some k) then p :: placed_on k log else placed_on k log.
Proof.
  unfold placed_on. rewrite filter_cons. simpl.
  by destruct (decide (r = Some k)).
Qed.

Lemma elem_of_placed_on (k : string) (p : Process) (log : list outcome) :
  p ∈ placed_on k log <-> (p, Some k) ∈ log.
Proof.
  unfold placed_on. rewrite list_elem_of_fmap. split.
  - intros ([q r] & -> & [Hr Hin]%list_elem_of_filter). simpl in *. by subst r.
  - intros Hin. exists (p, Some k). split; [done |]. by apply list_elem_of_filter.
Qed.

Lemma elem_of_unplaced (p : Process) (log : list outcome) :
  p ∈ unplaced log <-> (p, None) ∈ log.
Proof.
  unfold unplaced. rewrite list_elem_of_fmap. split.
  - intros ([q r] & -> & [Hr Hin]%list_elem_of_filter). simpl in *. by subst r.
  - intros Hin. exists (p, None). split; [done |]. by apply list_elem_of_filter.
Qed.

Lemma placed_unplaced_length (log : list outcome) :
  (length (placed log) + length (unplaced log) = length log)%nat.
Proof.
  unfold placed, unplaced. rewrite !length_fmap.
  induction log as [|[p r] log IH]; [done |].
  rewrite !filter_cons. simpl. destruct r as [k|].
  - rewrite decide_True by eauto. rewrite decide_False by done. simpl. lia.
  - rewrite decide_False by (by intros [? ?]). rewrite decide_True by done. simpl. lia.
Qed.

Lemma allocate_loop_allocations (ps : list Process) (self final : ProcessAllocator)
      (log : list outcome) :
  allocate_loop self ps = Some (final, log) ->
  (forall k lst, allocations self !! k = Some lst ->
                 allocations final !! k = Some (lst ++ placed_on k log))
  /\ (forall p k, (p, Some k) ∈ log -> k ∈ dict_keys (nodes self)).
Proof.
  revert self final log. induction ps as [|p ps IH]; intros self final log; simpl.
  - intros [= <- <-]. split.
    + intros k lst Hk. by rewrite app_nil_r.
    + intros q k Hin. by apply elem_of_nil in Hin.
  - destruct (_allocate_single_process self p) as [[self1 r]|] eqn:Hstep; simpl; [| done].
    destruct (allocate_loop self1 ps) as [[self2 log2]|] eqn:Hloop; simpl; [| done].
    intros [= <- <-]. destruct (IH _ _ _ Hloop) as [IHa IHk].
    pose proof (allocate_single_keys _ _ _ _ Hstep) as Hkeys.
    destruct r as [best|].
    + destruct (allocate_single_frame _ _ _ _ Hstep)
        as (best_node & lst0 & Hget & Hlk & _ & Hlk' & Hothers & _).
      split.
      * intros k lst Hk. rewrite placed_on_cons.
        destruct (decide (k = best)) as [-> | Hne].
        -- rewrite decide_True by done. rewrite Hlk in Hk. injection Hk as <-.
           rewrite (IHa _ _ Hlk'). by rewrite <- app_assoc.
        -- rewrite decide_False by congruence.
           apply IHa. by destruct (Hothers k Hne) as [_ ->].
      * intros q k [[= -> ->] | Hin]%elem_of_cons.
        -- apply dict_get_is_Some. eauto.
        -- rewrite <- Hkeys. by eapply IHk.
    + apply allocate_single_inv in Hstep as [(_ & -> & _) | (b & ? & ? & [=] & _)].
      split.
      * intros k lst Hk. rewrite placed_on_cons, decide_False by done. by apply IHa.
      * intros q k [[=] | Hin]%elem_of_cons. by eapply IHk.
Qed.

Lemma outcome_unique (log : list outcome) (p : Process) (r1 r2 : option string) :
  NoDup log.*1 -> (p, r1) ∈ log -> (p, r2) ∈ log -> r1 = r2.
Proof.
  induction log as [|[q r] log IH]; [by intros _ ?%elem_of_nil |].
  rewrite fmap_cons. simpl.
  intros [Hnotin Hnd]%NoDup_cons [H1 | H1]%elem_of_cons [H2 | H2]%elem_of_cons.
  - congruence.
  - exfalso. apply Hnotin. apply list_elem_of_fmap. exists (p, r2).
    split; [simpl; congruence | done].
  - exfalso. apply Hnotin. apply list_elem_of_fmap. exists (p, r1).
    split; [simpl; congruence | done].
  - by apply IH.
Qed.

Lemma placed_on_NoDup (k : string) (log : list outcome) :
  NoDup log.*1 -> NoDup (placed_on k log).
Proof.
  intros Hnd. eapply sublist_NoDup; [exact Hnd |].
  unfold placed_on. apply fmap_sublist, sublist_filter.
Qed.

Lemma allocate_processes_run (d : list (string * Node)) (processes : list Process) :
  exists final log,
    allocate_processes (ProcessAllocator_init d) processes = Some (final, log)
    /\ log.*1 = sorted_by_priority processes
    /\ dict_keys (nodes final) = dict_keys d
    /\ dom (allocations final) = list_to_set (dict_keys d)
    /\ (forall k lst, allocations final !! k = Some lst <->
                      k ∈ dict_keys d /\ lst = placed_on k log)
    /\ (forall p k, (p, Some k) ∈ log -> k ∈ dict_keys d).
Proof.
  unfold allocate_processes.
  destruct (allocate_loop_total (ProcessAllocator_init d) (sorted_by_priority processes)
              (init_registered d)) as (final & log & Hloop & Hreg & Hlog & Hkeys).
  destruct (allocate_loop_allocations _ _ _ _ Hloop) as [Hallocs Hplaced].
  simpl in Hkeys. unfold registered in Hreg. rewrite Hkeys in Hreg.
  exists final, log. repeat (split; [done |]). split; [| done].
  intros k lst. split.
  - intros Hk.
    assert (k ∈ dict_keys d) as Hin.
    { apply (elem_of_list_to_set (C:=gset string)). rewrite <- Hreg.
      by apply elem_of_dom_2 in Hk. }
    split; [done |].
    pose proof (init_lookup d k) as Hinit. rewrite decide_True in Hinit by done.
    apply Hallocs in Hinit. rewrite Hinit in Hk. by injection Hk as <-.
  - intros [Hin ->].
    pose proof (init_lookup d k) as Hinit. rewrite decide_True in Hinit by done.
    by apply Hallocs in Hinit.
Qed.

(** C8 (placement partition).  The pass returns; its outcome log lists the
    workloads of the batch, each as often as the batch holds it, so the
    number of placed plus the number of unplaced workloads is the size of
    the batch.  The allocation list of each node holds exactly the workloads
    logged as placed on that node, in that order.  When the workloads of the
    batch are pairwise distinct, each of them is either unplaced and then in
    no allocation list, or placed and then in the allocation list of exactly
    one node, exactly once. *)
Theorem C8_placement_partition (d : list (string * Node)) (processes : list Process) :
  exists final log,
    allocate_processes (ProcessAllocator_init d) processes = Some (final, log)
    /\ log.*1 ≡ₚ processes
    /\ (length (placed log) + length (unplaced log) = length processes)%nat
    /\ (forall k lst, allocations final !! k = Some lst <->
                      k ∈ dict_keys d /\ lst = placed_on k log)
    /\ (NoDup processes ->
        forall p, p ∈ processes ->
          ((p ∈ unplaced log) /\ (p ∉ placed log)
           /\ forall k lst, allocations final !! k = Some lst -> p ∉ lst)
          \/ ((p ∈ placed log) /\ (p ∉ unplaced log)
              /\ exists k lst,
                   allocations final !! k = Some lst
                   /\ (p ∈ lst) /\ NoDup lst
                   /\ forall k' lst', k' <> k ->
                        allocations final !! k' = Some lst' -> p ∉ lst')).
Proof.
  destruct (allocate_processes_run d processes)
    as (final & log & Hrun & Hlog & _ & _ & Hallocs & Hplaced).
  assert (log.*1 ≡ₚ processes) as Hperm
    by (rewrite Hlog; apply sorted_by_priority_perm).
  exists final, log. split; [done |]. split; [done |]. split.
  { rewrite <- Hperm, length_fmap. apply placed_unplaced_length. }
  split; [done |].
  intros Hnd p Hp. rewrite <- Hperm in Hnd, Hp.
  apply list_elem_of_fmap in Hp as ([q r] & -> & Hin). simpl.
  assert (forall r', (q, r') ∈ log -> r' = r) as Huniq
    by (intros r' Hr'; by eapply outcome_unique).
  destruct r as [k|].
  - right. split; [| split].
    + unfold placed. apply list_elem_of_fmap. exists (q, Some k). split; [done |].
      apply list_elem_of_filter. split; [by eexists | done].
    + intros Hu%elem_of_unplaced. by apply Huniq in Hu.
    + exists k, (placed_on k log). split; [| split; [| split]].
      * apply Hallocs. split; [by eapply Hplaced | done].
      * by apply elem_of_placed_on.
      * by apply placed_on_NoDup.
      * intros k' lst' Hne [_ ->]%Hallocs Hq%elem_of_placed_on.
        apply Huniq in Hq. congruence.
  - left. split; [by apply elem_of_unplaced | split].
    + unfold placed. intros ([q' r'] & -> & [Hsome Hin']%list_elem_of_filter)%list_elem_of_fmap.
      simpl in *. apply Huniq in Hin'. subst r'. by destruct Hsome.
    + intros k lst [_ ->]%Hallocs Hq%elem_of_placed_on. by apply Huniq in Hq.
Qed.

(** C9 (empty batch).  On an empty batch the pass returns the allocator it
    was given, with an empty outcome log: the registry is the one passed to
    the constructor, field for field, and the allocation map has exactly the
    node names as keys, each mapped to the empty list. *)
Theorem C9_empty_batch (d : list (string * Node)) :
  allocate_processes (ProcessAllocator_init d) [] = Some (ProcessAllocator_init d, [])
  /\ nodes (ProcessAllocator_init d) = d
  /\ forall k lst,
       allocations (ProcessAllocator_init d) !! k = Some lst <->
       k ∈ dict_keys d /\ lst = [].
Proof.
  split; [done |]. split; [done |].
  intros k lst. rewrite init_lookup.
  destruct (decide (k ∈ dict_keys d)); split.
  - intros [= <-]. done.
  - by intros [_ ->].
  - done.
  - by intros [? _].
Qed.

(** C10 (key stability).  For every batch the pass returns, and the key set
    of the returned allocation map is exactly the set of node names the
    allocator was constructed with; the registry keeps the same names in the
    same order, and a node on which the log places nothing is still a key,
    mapped to the empty list. *)
Theorem C10_allocation_keys (d : list (string * Node)) (processes : list Process) :
  exists final log,
    allocate_processes (ProcessAllocator_init d) processes = Some (final, log)
    /\ dom (allocations final) = list_to_set (dict_keys d)
    /\ dict_keys (nodes final) = dict_keys d
    /\ forall k, k ∈ dict_keys d -> placed_on k log = [] ->
                 allocations final !! k = Some [].
Proof.
  destruct (allocate_processes_run d processes)
    as (final & log & Hrun & _ & Hkeys & Hdom & Hallocs & _).
  exists final, log. repeat (split; [done |]).
  intros k Hk Hnone. apply Hallocs. by rewrite Hnone.
Qed.

Lemma allocate_loop_split (self final : ProcessAllocator) (attempted pending : list Process)
      (process : Process) (log : list outcome) :
  allocate_loop self (attempted ++ process :: pending) = Some (final, log) ->
  exists before log1 after r log2,
    allocate_loop self attempted = Some (before, log1)
    /\ _allocate_single_process before process = Some (after, r)
    /\ allocate_loop after pending = Some (final, log2)
    /\ log = log1 ++ (process, r) :: log2.
Proof.
  rewrite allocate_loop_app.
  destruct (allocate_loop self attempted) as [[before log1]|]; simpl; [| done].
  destruct (_allocate_single_process before process) as [[after r]|] eqn:Hstep;
    simpl; [| done].
  destruct (allocate_loop after pending) as [[final' log2]|] eqn:Hrest; simpl; [| done].
  intros [= <- <-]. by exists before, log1, after, r, log2.
Qed.

(** C4 (priority ordering).  The pass returns, and the order in which it
    attempts the workloads (the order of its outcome log) is a rearrangement
    of the batch in which priorities never increase, so a workload of
    strictly higher priority is attempted strictly before one of lower
    priority, and in which the workloads of any one priority keep the
    relative order they had in the batch.  The log order is the order of the
    attempts themselves: the workload at any position of the log is handed to
    [_allocate_single_process] on the allocator that the attempts of the
    workloads before it have left, its outcome is the one logged at that
    position, and the workloads after it are attempted from the allocator it
    leaves, ending in the final allocator. *)
Theorem C4_priority_ordering (d : list (string * Node)) (processes : list Process) :
  exists final log,
    allocate_processes (ProcessAllocator_init d) processes = Some (final, log)
    /\ log.*1 ≡ₚ processes
    /\ (forall (i j : nat) p q,
          (i < j)%nat -> log.*1 !! i = Some p -> log.*1 !! j = Some q ->
          priority q <= priority p)
    /\ (forall (i j : nat) p q,
          log.*1 !! i = Some p -> log.*1 !! j = Some q ->
          priority q < priority p -> (i < j)%nat)
    /\ (forall prio,
          filter (fun x => priority x = prio) log.*1
          = filter (fun x => priority x = prio) processes)
    /\ (forall attempted p pending,
          log.*1 = attempted ++ p :: pending ->
          exists before log1 after r log2,
            allocate_loop (ProcessAllocator_init d) attempted = Some (before, log1)
            /\ log1.*1 = attempted
            /\ _allocate_single_process before p = Some (after, r)
            /\ allocate_loop after pending = Some (final, log2)
            /\ log2.*1 = pending
            /\ log = log1 ++ (p, r) :: log2).
Proof.
  destruct (allocate_processes_run d processes) as (final & log & Hrun & Hlog & _).
  exists final, log. split; [done |].
  pose proof (sorted_lookup _ (sorted_by_priority_sorted processes)) as Hsorted.
  split; [rewrite Hlog; apply sorted_by_priority_perm |].
  split; [rewrite Hlog; exact Hsorted |]. split; [| split].
  - rewrite Hlog. intros i j p q Hi Hj Hlt.
    destruct (decide (i < j)%nat) as [| Hge]; [done |]. exfalso.
    destruct (decide (i = j)) as [-> | Hne].
    + rewrite Hi in Hj. injection Hj as ->. lia.
    + assert (j < i)%nat as Hji by lia.
      pose proof (Hsorted j i q p Hji Hj Hi). lia.
  - rewrite Hlog. intros prio. apply sorted_by_priority_stable.
  - intros attempted p pending Hsplit. unfold allocate_processes in Hrun.
    rewrite <- Hlog, Hsplit in Hrun.
    destruct (allocate_loop_split _ _ _ _ _ _ Hrun)
      as (before & log1 & after & r & log2 & H1 & Hstep & H2 & Hcat).
    exists before, log1, after, r, log2.
    destruct (allocate_loop_total (ProcessAllocator_init d) attempted (init_registered d))
      as (b' & l1' & H1' & Hreg1 & Hl1 & _).
    rewrite H1 in H1'. injection H1' as <- <-.
    destruct (allocate_loop_total after pending
                (allocate_single_registered _ _ _ _ Hstep Hreg1))
      as (f' & l2' & H2' & _ & Hl2 & _).
    rewrite H2 in H2'. injection H2' as <- <-.
    done.
Qed.

(** ** Placement score *)

(** C2, as the code has it (placement score formula).  The candidates of a
    workload are exactly the registry nodes that pass the capacity gate, each
    paired with the score
    [load_score * 0.5 + (latency / 30) * 0.3 + service_bonus], where
    [load_score = (cpu/100)*0.6 + (memory/20)*0.3 + (latency/30)*0.1] and
    [service_bonus] is [0] when the lower-cased service tag of the workload
    contains the lower-cased form of one of the node's declared service names
    as a substring, and [0.2] otherwise.  A service name that merely contains
    the workload's tag does not count. *)
Theorem C2_placement_score_formula (items : list (string * Node)) (process : Process)
        (k : string) (node : Node) (score : Q) :
  ((k, node, score) ∈ find_candidates items process <->
   (k, node) ∈ items
   /\ has_capacity node (cpu_requirement process) (memory_requirement process) = true
   /\ exists service_bonus : Q,
        score = (calculate_load_score node * 0.5 + inject_Z (latency node) / 30 * 0.3
                 + service_bonus)%Q
        /\ (service_named_in_tag node process -> service_bonus = 0%Q)
        /\ (~ service_named_in_tag node process -> service_bonus = 0.2%Q))
  /\ (calculate_load_score node
      == inject_Z (cpu node) / 100 * 0.6 + memory node / 20 * 0.3
         + inject_Z (latency node) / 30 * 0.1)%Q.
Proof.
  split; [| reflexivity].
  rewrite find_candidates_elem_of.
  pose proof (service_match_spec node process) as Hspec.
  fold (service_named_in_tag node process) in Hspec.
  split.
  - intros (Hin & Hcap & ->). split; [done |]. split; [done |].
    exists (if service_match node process then 0%Q else 0.2%Q).
    split; [reflexivity |]. split.
    + intros Hm. apply Hspec in Hm. by rewrite Hm.
    + intros Hm. destruct (service_match node process); [| done].
      exfalso. by apply Hm, Hspec.
  - intros (Hin & Hcap & bonus & -> & Hyes & Hno). split; [done |]. split; [done |].
    unfold placement_score. destruct (service_match node process) eqn:Hm.
    + rewrite Hyes; [done | by apply Hspec].
    + rewrite Hno; [done |]. intros Hm'%Hspec. congruence.
Qed.

Lemma C2_placement_score_formula_witness :
  (("EdgeA"%string, EdgeA, placement_score EdgeA P1_Analytics)
     ∈ find_candidates reference_nodes P1_Analytics <->
   ("EdgeA"%string, EdgeA) ∈ reference_nodes
   /\ has_capacity EdgeA 15 2.0 = true
   /\ exists service_bonus : Q,
        placement_score EdgeA P1_Analytics
        = (calculate_load_score EdgeA * 0.5 + inject_Z 10 / 30 * 0.3 + service_bonus)%Q
        /\ (service_named_in_tag EdgeA P1_Analytics -> service_bonus = 0%Q)
        /\ (~ service_named_in_tag EdgeA P1_Analytics -> service_bonus = 0.2%Q))
  /\ (calculate_load_score EdgeA
      == inject_Z 40 / 100 * 0.6 + 4.0 / 20 * 0.3 + inject_Z 10 / 30 * 0.1)%Q.
Proof.
  exact (C2_placement_score_formula reference_nodes P1_Analytics "EdgeA" EdgeA
           (placement_score EdgeA P1_Analytics)).
Defined.

(** C2, as the specification words it, fails: the tag "RPC" is contained by
    the declared service "RPCCall" of EdgeA, so the specification gives the
    bonus 0.0, but the code only looks for the service name inside the tag
    and adds 0.2.  EdgeA passes the capacity gate for this workload, and the
    score under which it becomes a candidate is not the specified one. *)
Lemma C2_counterexample :
  has_capacity EdgeA (cpu_requirement rpc_probe) (memory_requirement rpc_probe) = true
  /\ find_candidates [("EdgeA"%string, EdgeA)] rpc_probe
     = [("EdgeA"%string, EdgeA, placement_score EdgeA rpc_probe)]
  /\ spec_service_match EdgeA rpc_probe = true
  /\ service_match EdgeA rpc_probe = false
  /\ ~ (placement_score EdgeA rpc_probe == spec_placement_score EdgeA rpc_probe)%Q.
Proof.
  repeat (split; [reflexivity |]).
  intros Heq. vm_compute in Heq. discriminate Heq.
Qed.

(** ** Witnesses on the reference dataset *)

Lemma sample_processes_NoDup : NoDup _generate_sample_processes.
Proof.
  apply NoDup_ListNoDup. repeat constructor; simpl; intuition discriminate.
Defined.

Lemma P1_Analytics_in_sample : P1_Analytics ∈ _generate_sample_processes.
Proof. apply elem_of_cons. by left. Defined.

Lemma C8_placement_partition_witness :
  exists final log,
    allocate_processes (ProcessAllocator_init reference_nodes) _generate_sample_processes
    = Some (final, log)
    /\ (length (placed log) + length (unplaced log) = 10)%nat
    /\ (((P1_Analytics ∈ unplaced log) /\ (P1_Analytics ∉ placed log)
         /\ forall k lst, allocations final !! k = Some lst -> P1_Analytics ∉ lst)
        \/ ((P1_Analytics ∈ placed log) /\ (P1_Analytics ∉ unplaced log)
            /\ exists k lst,
                 allocations final !! k = Some lst
                 /\ (P1_Analytics ∈ lst) /\ NoDup lst
                 /\ forall k' lst', k' <> k ->
                      allocations final !! k' = Some lst' -> P1_Analytics ∉ lst')).
Proof.
  destruct (C8_placement_partition reference_nodes _generate_sample_processes)
    as (final & log & Hrun & _ & Hlen & _ & Heach).
  exists final, log. split; [exact Hrun |]. split; [exact Hlen |].
  exact (Heach sample_processes_NoDup P1_Analytics P1_Analytics_in_sample).
Defined.

Lemma C9_empty_batch_witness :
  allocate_processes (ProcessAllocator_init reference_nodes) []
  = Some (ProcessAllocator_init reference_nodes, [])
  /\ allocations (ProcessAllocator_init reference_nodes) !! "EdgeA"%string = Some [].
Proof.
  destruct (C9_empty_batch reference_nodes) as (Hrun & _ & Hallocs).
  split; [exact Hrun |]. apply Hallocs. split; [| reflexivity].
  apply elem_of_cons. left. reflexivity.
Defined.

Lemma C10_allocation_keys_witness :
  exists final log,
    allocate_processes (ProcessAllocator_init reference_nodes) _generate_sample_processes
    = Some (final, log)
    /\ dom (allocations final) = list_to_set (dict_keys reference_nodes)
    /\ dict_keys (nodes final) = dict_keys reference_nodes.
Proof.
  destruct (C10_allocation_keys reference_nodes _generate_sample_processes)
    as (final & log & Hrun & Hdom & Hkeys & _).
  exists final, log. split; [exact Hrun |]. split; [exact Hdom | exact Hkeys].
Defined.

Lemma C4_priority_ordering_witness :
  exists final log,
    allocate_processes (ProcessAllocator_init reference_nodes) _generate_sample_processes
    = Some (final, log)
    /\ log.*1 ≡ₚ _generate_sample_processes
    /\ filter (fun x => priority x = 3) log.*1
       = filter (fun x => priority x = 3) _generate_sample_processes
    /\ (forall p pending,
          log.*1 = [] ++ p :: pending ->
          exists before log1 after r log2,
            allocate_loop (ProcessAllocator_init reference_nodes) [] = Some (before, log1)
            /\ log1.*1 = []
            /\ _allocate_single_process before p = Some (after, r)
            /\ allocate_loop after pending = Some (final, log2)
            /\ log2.*1 = pending
            /\ log = log1 ++ (p, r) :: log2).
Proof.
  destruct (C4_priority_ordering reference_nodes _generate_sample_processes)
    as (final & log & Hrun & Hperm & _ & _ & Hstable & Htrace).
  exists final, log. split; [exact Hrun |]. split; [exact Hperm |].
  split; [exact (Hstable 3) | exact (Htrace [])].
Defined.

(** * Further properties of the allocator *)

(** ** The reference dataset is in range *)

Lemma reference_nodes_in_range : registry_in_range reference_nodes.
Proof.
  intros k node Hin. apply list_elem_of_In in Hin. simpl in Hin.
  repeat (destruct Hin as [[= <- <-] | Hin];
          [unfold node_in_range, small_int; simpl; solve_node_in_range |]).
  destruct Hin.
Defined.



Lemma sample_processes_in_range :
  forall p, p ∈ _generate_sample_processes -> process_in_range p.
Proof.
  intros p Hin. apply list_elem_of_In in Hin. simpl in Hin.
  repeat (destruct Hin as [<- | Hin];
          [unfold process_in_range, small_int; simpl; solve_node_in_range |]).
  destruct Hin.
Defined.

Lemma P_Oversized_in_range : process_in_range P_Oversized.
Proof. unfold process_in_range, small_int; simpl; solve_node_in_range. Defined.

(** ** The tie-break of [min] *)

Lemma min_from_first (best : candidate) (rest : list candidate) :
  exists l1 l2,
    best :: rest = l1 ++ min_from best rest :: l2
    /\ (forall y, y ∈ l1 -> ((min_from best rest).2 < y.2)%Q)
    /\ (forall y, y ∈ l2 -> ((min_from best rest).2 <= y.2)%Q).
Proof.
  revert best. induction rest as [|c rest IH]; intros best; simpl.
  - exists [], []. split; [done |]. split; intros y Hy; by apply elem_of_nil in Hy.
  - destruct (score_lt c.2 best.2) eqn:Hlt.
    + destruct (IH c) as (l1 & l2 & Heq & Hl1 & Hl2).
      exists (best :: l1), l2. split; [simpl; by rewrite <- Heq |]. split; [| done].
      intros y [-> | Hy]%elem_of_cons; [| by apply Hl1].
      apply score_lt_true in Hlt.
      eapply Qle_lt_trans; [apply min_from_le_best | done].
    + apply score_lt_false in Hlt.
      destruct (IH best) as (l1 & l2 & Heq & Hl1 & Hl2).
      destruct l1 as [|b l1]; simpl in Heq.
      * injection Heq as Hb Hrest. exists [], (c :: l2).
        split; [simpl; by rewrite <- Hb, Hrest |]. split.
        -- intros y Hy. by apply elem_of_nil in Hy.
        -- intros y [-> | Hy]%elem_of_cons; [by rewrite <- Hb | by apply Hl2].
      * injection Heq as <- Hrest. exists (best :: c :: l1), l2.
        split; [simpl; do 2 f_equal; exact Hrest |]. split; [| exact Hl2].
        assert ((min_from best rest).2 < best.2)%Q as Hb
          by (apply Hl1, elem_of_cons; by left).
        intros y [-> | [-> | Hy]%elem_of_cons]%elem_of_cons.
        -- exact Hb.
        -- eapply Qlt_le_trans; [exact Hb | exact Hlt].
        -- apply Hl1, elem_of_cons. by right.
Qed.

Lemma find_candidates_split (items : list (string * Node)) (process : Process)
      (l1 l2 : list candidate) (k : string) (node : Node) (score : Q) :
  find_candidates items process = l1 ++ (k, node, score) :: l2 ->
  exists n1 n2,
    items = n1 ++ (k, node) :: n2
    /\ find_candidates n1 process = l1
    /\ find_candidates n2 process = l2
    /\ has_capacity node (cpu_requirement process) (memory_requirement process) = true
    /\ score = placement_score node process.
Proof.
  revert l1. induction items as [|[k' v] items IH]; intros l1; simpl.
  - intros Hnil. by destruct l1.
  - destruct (has_capacity v _ _) eqn:Hcap.
    + destruct l1 as [|y l1]; simpl.
      * intros [= -> -> <- Hrest]. exists [], items. by rewrite Hrest.
      * intros [= <- Hrest].
        destruct (IH _ Hrest) as (n1 & n2 & -> & H1 & H2 & Hc & Hs).
        exists ((k', v) :: n1), n2. simpl. rewrite Hcap, H1. done.
    + intros Hrest. destruct (IH _ Hrest) as (n1 & n2 & -> & H1 & H2 & Hc & Hs).
      exists ((k', v) :: n1), n2. simpl. by rewrite Hcap.
Qed.

(** X1 (tie-break).  A placement goes to the first node, in the iteration
    order of the registry, whose placement score is minimal among the nodes
    that pass the capacity gate: every gate-passing node before it has a
    strictly greater score, every gate-passing node after it has a score
    greater than or equal. *)
Theorem X1_first_minimal_node (self self' : ProcessAllocator) (process : Process)
        (best : string) :
  _allocate_single_process self process = Some (self', Some best) ->
  exists best_node before after,
    nodes self = before ++ (best, best_node) :: after
    /\ has_capacity best_node (cpu_requirement process)
                    (memory_requirement process) = true
    /\ (forall k node,
          (k, node) ∈ before ->
          has_capacity node (cpu_requirement process)
                       (memory_requirement process) = true ->
          (placement_score best_node process < placement_score node process)%Q)
    /\ (forall k node,
          (k, node) ∈ after ->
          has_capacity node (cpu_requirement process)
                       (memory_requirement process) = true ->
          (placement_score best_node process <= placement_score node process)%Q).
Proof.
  unfold _allocate_single_process.
  destruct (find_candidates (nodes self) process) as [|c cs] eqn:Hfc; [done |].
  destruct (min_from_first c cs) as (l1 & l2 & Hsplit & Hl1 & Hl2).
  destruct (min_from c cs) as [[b best_node] s].
  destruct (allocations self !! b) as [lst|]; simpl; [| done].
  intros [= _ ->]. rewrite Hsplit in Hfc.
  destruct (find_candidates_split _ _ _ _ _ _ _ Hfc) as (n1 & n2 & Hn & H1 & H2 & Hcap & ->).
  exists best_node, n1, n2. split; [done |]. split; [done |]. split.
  - intros k node Hin Hc.
    apply (Hl1 (k, node, placement_score node process)).
    rewrite <- H1. by apply find_candidates_elem_of.
  - intros k node Hin Hc.
    apply (Hl2 (k, node, placement_score node process)).
    rewrite <- H2. by apply find_candidates_elem_of.
Qed.

Lemma X1_first_minimal_node_witness :
  exists best_node before after,
    reference_nodes = before ++ ("EdgeA"%string, best_node) :: after
    /\ has_capacity best_node 15 2.0 = true
    /\ (forall k node,
          (k, node) ∈ before -> has_capacity node 15 2.0 = true ->
          (placement_score best_node P1_Analytics < placement_score node P1_Analytics)%Q)
    /\ (forall k node,
          (k, node) ∈ after -> has_capacity node 15 2.0 = true ->
          (placement_score best_node P1_Analytics <= placement_score node P1_Analytics)%Q).
Proof.
  exact (X1_first_minimal_node (ProcessAllocator_init reference_nodes) after_P1
           P1_Analytics "EdgeA" P1_Analytics_placed).
Defined.

(** ** When a workload is placed *)

(** X2 (placed exactly when some node has room).  Take an allocator whose
    allocation map has the node names as keys, whose integers are small and
    whose memory values, like the memory requirement of the workload, are
    exact ([registry_in_range], [process_in_range]): no conversion to a
    double overflows and the memory sums of the gate are not rounded.  Then
    a placement attempt does not raise; it leaves the workload unplaced
    exactly when no node passes the capacity gate, and places it exactly
    when some node does. *)
Theorem X2_placed_iff_capacity (self : ProcessAllocator) (process : Process) :
  registered self ->
  registry_in_range (nodes self) ->
  process_in_range process ->
  exists self' r,
    _allocate_single_process self process = Some (self', r)
    /\ (r = None <-> no_capacity_for (nodes self) process)
    /\ (is_Some r <->
        exists k node,
          (k, node) ∈ nodes self
          /\ has_capacity node (cpu_requirement process)
                          (memory_requirement process) = true).
Proof.
  intros Hreg _ _.
  destruct (allocate_single_total self process Hreg) as (self' & r & Hstep).
  exists self', r. split; [done |].
  apply allocate_single_inv in Hstep
    as [(-> & _ & Hnil) | (best & best_node & lst & -> & Hin & Hcap & _)].
  - pose proof (proj1 (find_candidates_nil _ _) Hnil) as Hno. split; [done |]. split.
    + by intros [? ?].
    + intros (k & node & Hk & Hc). by rewrite (Hno _ _ Hk) in Hc.
  - split; [| split; [by eauto | by eexists]].
    split; [done |]. intros Hnone. by rewrite (Hnone _ _ Hin) in Hcap.
Qed.

Lemma X2_placed_iff_capacity_witness :
  exists self' r,
    _allocate_single_process (ProcessAllocator_init reference_nodes) P_Oversized
    = Some (self', r)
    /\ (r = None <-> no_capacity_for reference_nodes P_Oversized)
    /\ (is_Some r <->
        exists k node,
          (k, node) ∈ reference_nodes /\ has_capacity node 60 1.0 = true).
Proof.
  exact (X2_placed_iff_capacity (ProcessAllocator_init reference_nodes) P_Oversized
           (init_registered reference_nodes) reference_nodes_in_range
           P_Oversized_in_range).
Defined.

(** ** Accounting *)

Lemma allocate_loop_accounting (ps : list Process) (self final : ProcessAllocator)
      (log : list outcome) :
  allocate_loop self ps = Some (final, log) ->
  forall k node,
    dict_get (nodes self) k = Some node ->
    exists node',
      dict_get (nodes final) k = Some node'
      /\ cpu node' = cpu node + cpu_demand (placed_on k log)
      /\ (memory node' == memory node + memory_demand (placed_on k log))%Q.
Proof.
  revert self final log. induction ps as [|p ps IH]; intros self final log; simpl.
  - intros [= <- <-] k node Hk. exists node. split; [done |].
    unfold placed_on. simpl. split; [lia | lra].
  - destruct (_allocate_single_process self p) as [[self1 r]|] eqn:Hstep; simpl; [| done].
    destruct (allocate_loop self1 ps) as [[self2 log2]|] eqn:Hloop; simpl; [| done].
    intros [= <- <-] k node Hk. specialize (IH _ _ _ Hloop k).
    rewrite placed_on_cons. destruct r as [best|].
    + destruct (allocate_single_frame _ _ _ _ Hstep)
        as (best_node & lst0 & Hget & _ & Hget' & _ & Hothers & _).
      destruct (decide (best = k)) as [-> | Hne].
      * rewrite decide_True by done. rewrite Hk in Hget. injection Hget as <-.
        destruct (IH _ Hget') as (node' & Hfinal & Hcpu & Hmem).
        exists node'. split; [done |]. simpl in *. split; [lia | lra].
      * rewrite decide_False by congruence.
        apply IH. destruct (Hothers k) as [-> _]; [congruence | done].
    + rewrite decide_False by done.
      apply allocate_single_inv in Hstep as [(_ & -> & _) | (b & ? & ? & [=] & _)].
      by apply IH.
Qed.

(** X4 (accounting).  Take a registry and a batch in range
    ([registry_in_range], [batch_in_range]): small integers, non-negative
    requirements, and memory values that are multiples of 1/1024, so that
    every [+=] of the pass is computed without rounding.  After the pass, the
    [cpu] of every node is its initial [cpu] plus the CPU requirements of the
    workloads in its allocation list, and its [memory] is its initial
    [memory] plus their memory requirements. *)
Theorem X4_usage_is_initial_plus_allocated (d : list (string * Node))
        (processes : list Process) :
  registry_in_range d ->
  batch_in_range processes ->
  exists final log,
    allocate_processes (ProcessAllocator_init d) processes = Some (final, log)
    /\ forall k node,
         dict_get d k = Some node ->
         exists node' procs,
           dict_get (nodes final) k = Some node'
           /\ allocations final !! k = Some procs
           /\ cpu node' = cpu node + cpu_demand procs
           /\ (memory node' == memory node + memory_demand procs)%Q.
Proof.
  intros _ _.
  destruct (allocate_processes_run d processes)
    as (final & log & Hrun & _ & _ & _ & Hallocs & _).
  exists final, log. split; [done |]. intros k node Hk.
  destruct (allocate_loop_accounting _ _ _ _ Hrun k node Hk) as (node' & Hget & Hcpu & Hmem).
  exists node', (placed_on k log). split; [done |]. split; [| done].
  apply Hallocs. split; [| done]. apply dict_get_is_Some. eauto.
Qed.

(** ** A failed workload stays unplaceable *)

Lemma has_capacity_shrinks (node node' : Node) (cpu_needed : Z) (memory_needed : Q) :
  cpu node <= cpu node' -> (memory node <= memory node')%Q ->
  has_capacity node cpu_needed memory_needed = false ->
  has_capacity node' cpu_needed memory_needed = false.
Proof.
  intros Hcpu Hmem Hno.
  destruct (has_capacity node' cpu_needed memory_needed) eqn:Hyes; [| done].
  apply has_capacity_true in Hyes as [Hc Hm].
  assert (has_capacity node cpu_needed memory_needed = true) as Hcontra.
  { apply has_capacity_true. split; [lia | lra]. }
  congruence.
Qed.

Lemma no_capacity_grow (d d' : list (string * Node)) (process : Process) :
  NoDup (dict_keys d') -> dict_keys d' = dict_keys d -> nodes_grow d d' ->
  no_capacity_for d process -> no_capacity_for d' process.
Proof.
  intros Hnd Hkeys Hgrow Hno k node' Hin.
  pose proof (elem_of_dict_get _ _ _ Hnd Hin) as Hget'.
  assert (is_Some (dict_get d k)) as [node Hget].
  { apply dict_get_is_Some. rewrite <- Hkeys. apply dict_get_is_Some. eauto. }
  destruct (Hgrow k node Hget) as (node2 & Hget2 & Hcpu & Hmem).
  rewrite Hget' in Hget2. injection Hget2 as <-.
  eapply has_capacity_shrinks; [exact Hcpu | exact Hmem |].
  eapply Hno. by apply dict_get_elem_of.
Qed.

Lemma allocate_loop_failed_stays (ps : list Process) (self final : ProcessAllocator)
      (log : list outcome) :
  NoDup (dict_keys (nodes self)) ->
  (forall p, p ∈ ps -> non_negative p) ->
  allocate_loop self ps = Some (final, log) ->
  forall p, (p, None) ∈ log -> no_capacity_for (nodes final) p.
Proof.
  revert self final log. induction ps as [|q ps IH]; intros self final log Hnd Hnn; simpl.
  - intros [= <- <-] p Hp. by apply elem_of_nil in Hp.
  - destruct (_allocate_single_process self q) as [[self1 r]|] eqn:Hstep; simpl; [| done].
    destruct (allocate_loop self1 ps) as [[self2 log2]|] eqn:Hloop; simpl; [| done].
    intros [= <- <-] p Hp.
    assert (forall p, p ∈ ps -> non_negative p) as Hnn'
      by (intros x Hx; apply Hnn, elem_of_cons; by right).
    pose proof (allocate_single_keys _ _ _ _ Hstep) as Hkeys1.
    apply elem_of_cons in Hp as [[= -> <-] | Hp].
    + apply allocate_single_inv in Hstep as [(_ & -> & Hnil) | (b & ? & ? & [=] & _)].
      pose proof (proj1 (find_candidates_nil _ _) Hnil) as Hno.
      pose proof (allocate_loop_keys _ _ _ _ Hloop) as Hkeys.
      eapply no_capacity_grow; [by rewrite Hkeys | exact Hkeys | | exact Hno].
      by eapply allocate_loop_grow.
    + eapply (IH self1); [by rewrite Hkeys1 | exact Hnn' | exact Hloop | exact Hp].
Qed.

Lemma truthy_false (r : option string) :
  truthy r = false <-> r = None \/ r = Some ""%string.
Proof.
  destruct r as [name|]; simpl; [| by split; [left |]].
  rewrite negb_false_iff, String.eqb_eq. split.
  - intros ->. by right.
  - by intros [? | [= ->]].
Qed.

(** X5 (no retry would help).  Take a registry with distinct, non-empty
    names and a registry and batch in range, with non-negative requirements.
    Then every workload for which the pass prints the FAILED line (the
    returned name is [None] or empty, [if allocated:] being false) is still
    refused by the capacity gate of every node at the end of the pass. *)
Theorem X5_failed_stays_unplaceable (d : list (string * Node))
        (processes : list Process) :
  NoDup (dict_keys d) ->
  ""%string ∉ dict_keys d ->
  registry_in_range d ->
  batch_in_range processes ->
  exists final log,
    allocate_processes (ProcessAllocator_init d) processes = Some (final, log)
    /\ forall p r, (p, r) ∈ log -> truthy r = false ->
                   no_capacity_for (nodes final) p.
Proof.
  intros Hnd Hnonempty _ Hbatch.
  destruct (allocate_processes_run d processes)
    as (final & log & Hrun & _ & _ & _ & _ & Hplaced).
  exists final, log. split; [done |].
  intros p r Hin [-> | ->]%truthy_false.
  - eapply (allocate_loop_failed_stays _ (ProcessAllocator_init d));
      [done | | exact Hrun | exact Hin].
    intros q Hq. apply Hbatch. by rewrite <- (sorted_by_priority_perm processes).
  - exfalso. apply Hnonempty. by eapply Hplaced.
Qed.

Lemma reference_names_non_empty : ""%string ∉ dict_keys reference_nodes.
Proof.
  intros Hin. apply list_elem_of_In in Hin. simpl in Hin.
  repeat (destruct Hin as [Hin | Hin]; [discriminate Hin |]).
  destruct Hin.
Defined.

Lemma sample_batch_in_range : batch_in_range _generate_sample_processes.
Proof.
  intros p Hp. split;
    [by apply sample_processes_in_range | by apply sample_processes_non_negative].
Defined.

Lemma oversized_batch_in_range :
  batch_in_range (P_Oversized :: _generate_sample_processes).
Proof.
  intros p [-> | Hp]%elem_of_cons.
  - split; [exact P_Oversized_in_range |]. split; [simpl; lia | by vm_compute].
  - by apply sample_batch_in_range.
Defined.

Lemma X4_usage_is_initial_plus_allocated_witness :
  exists final log,
    allocate_processes (ProcessAllocator_init reference_nodes) _generate_sample_processes
    = Some (final, log)
    /\ forall k node,
         dict_get reference_nodes k = Some node ->
         exists node' procs,
           dict_get (nodes final) k = Some node'
           /\ allocations final !! k = Some procs
           /\ cpu node' = cpu node + cpu_demand procs
           /\ (memory node' == memory node + memory_demand procs)%Q.
Proof.
  exact (X4_usage_is_initial_plus_allocated reference_nodes _generate_sample_processes
           reference_nodes_in_range sample_batch_in_range).
Defined.

Lemma X5_failed_stays_unplaceable_witness :
  exists final log,
    allocate_processes (ProcessAllocator_init reference_nodes)
                       (P_Oversized :: _generate_sample_processes)
    = Some (final, log)
    /\ forall p r, (p, r) ∈ log -> truthy r = false ->
                   no_capacity_for (nodes final) p.
Proof.
  exact (X5_failed_stays_unplaceable reference_nodes
           (P_Oversized :: _generate_sample_processes)
           reference_nodes_NoDup reference_names_non_empty
           reference_nodes_in_range oversized_batch_in_range).
Defined.

(** ** Scores under load *)

(** X6 (load score range).  For a node whose [cpu] is between 0 and 100,
    whose [memory] is between 0 and 20 and whose [latency] is between 0 and
    30, the normalising constants of the source, the load score lies between
    0 and 1. *)
Theorem X6_load_score_range (node : Node) :
  within_norms node ->
  (0 <= calculate_load_score node <= 1)%Q.
Proof.
  intros ([Hc0 Hc1] & [Hm0 Hm1] & [Hl0 Hl1]).
  rewrite Zle_Qle in Hc0, Hc1, Hl0, Hl1.
  unfold calculate_load_score. cbv zeta.
  change (inject_Z 0) with 0%Q in *. change (inject_Z 100) with 100%Q in *.
  change (inject_Z 30) with 30%Q in *.
  set (c := inject_Z (cpu node)) in *. set (l := inject_Z (latency node)) in *.
  set (m := memory node) in *. unfold Qdiv.
  change (/ 100)%Q with (1 # 100)%Q. change (/ 20)%Q with (1 # 20)%Q.
  change (/ 30)%Q with (1 # 30)%Q.
  split; lra.
Qed.

Lemma EdgeA_within_norms : within_norms EdgeA.
Proof. repeat split; try (simpl; lia); by vm_compute. Defined.

Lemma X6_load_score_range_witness : (0 <= calculate_load_score EdgeA <= 1)%Q.
Proof. exact (X6_load_score_range EdgeA EdgeA_within_norms). Defined.

(** X7 (a commit makes the node less attractive).  For a node whose [cpu]
    and [latency] are small integers, before and after the commit, committing
    a workload with non-negative requirements never lowers the placement
    score of the node for any later workload. *)
Theorem X7_commit_raises_score (node : Node) (committed later : Process) :
  small_int (cpu node) ->
  small_int (latency node) ->
  small_int (cpu node + cpu_requirement committed) ->
  non_negative committed ->
  (placement_score node later <= placement_score (commit committed node) later)%Q.
Proof.
  intros _ _ _ [Hcpu Hmem].
  assert (placement_score (commit committed node) later
          == placement_score node later
             + (inject_Z (cpu_requirement committed) / 100 * 0.6
                + memory_requirement committed / 20 * 0.3) * 0.5)%Q as Heq.
  { unfold placement_score, calculate_load_score, service_match. simpl.
    rewrite inject_Z_plus. unfold Qdiv.
    destruct (existsb _ _); ring. }
  rewrite Heq. rewrite Zle_Qle in Hcpu.
  change (inject_Z 0) with 0%Q in Hcpu.
  set (c := inject_Z (cpu_requirement committed)) in *.
  set (m := memory_requirement committed) in *.
  set (s := placement_score node later). unfold Qdiv.
  change (/ 100)%Q with (1 # 100)%Q. change (/ 20)%Q with (1 # 20)%Q.
  lra.
Qed.

Lemma X7_commit_raises_score_witness :
  (placement_score EdgeA rpc_probe
   <= placement_score (commit P1_Analytics EdgeA) rpc_probe)%Q.
Proof.
  apply (X7_commit_raises_score EdgeA P1_Analytics rpc_probe).
  - split; reflexivity.
  - split; reflexivity.
  - split; reflexivity.
  - apply sample_processes_non_negative, P1_Analytics_in_sample.
Defined.

(** ** Service affinity *)

Lemma lower_app (a b : string) : lower (a +:+ b) = lower a +:+ lower b.
Proof. induction a as [|c a IH]; simpl; [done | by rewrite IH]. Qed.

(** X8 (case-insensitive substring match, for text of code points below
    256).  Strings are sequences of code points below 256 here, where
    [str.lower] acts on each character by itself.  For such text: when the
    service tag of a workload contains, anywhere inside it, a spelling of one
    of the node's declared service names that differs from it at most in
    letter case, the node counts as matching and the 0.2 penalty is not
    added.  (Outside that range [str.lower] depends on the context of a
    character, and the statement is not made.) *)
Theorem X8_decorated_tag_matches (node : Node) (process : Process)
        (svc pre tag post : string) :
  svc ∈ services node ->
  service_type process = pre +:+ tag +:+ post ->
  lower tag = lower svc ->
  service_match node process = true
  /\ placement_score node process
     = (calculate_load_score node * 0.5 + inject_Z (latency node) / 30 * 0.3 + 0)%Q.
Proof.
  intros Hsvc Htag Hlow.
  assert (service_match node process = true) as Hm.
  { apply service_match_spec. exists svc, (lower pre), (lower post).
    split; [done |]. by rewrite Htag, !lower_app, Hlow. }
  split; [done |]. unfold placement_score. by rewrite Hm.
Qed.

Lemma X8_decorated_tag_matches_witness :
  service_match EdgeA rpc_decorated = true
  /\ placement_score EdgeA rpc_decorated
     = (calculate_load_score EdgeA * 0.5 + inject_Z (latency EdgeA) / 30 * 0.3 + 0)%Q.
Proof.
  apply (X8_decorated_tag_matches EdgeA rpc_decorated "RPCCall" "edge-" "rpccall" "-handler").
  - apply elem_of_cons. left. reflexivity.
  - reflexivity.
  - reflexivity.
Defined.

(** * Properties of the latency analysis *)

(** ** [max] and [min] *)

Lemma max_from_elem_of {A : Type} (key : A -> Z) (best : A) (rest : list A) :
  max_from key best rest ∈ best :: rest.
Proof.
  revert best. induction rest as [|c rest IH]; intros best; simpl.
  - apply elem_of_cons. by left.
  - specialize (IH (if key best <? key c then c else best)).
    apply elem_of_cons in IH as [Heq | Hin].
    + rewrite Heq. destruct (key best <? key c).
      * apply elem_of_cons. right. apply elem_of_cons. by left.
      * apply elem_of_cons. by left.
    + apply elem_of_cons. right. apply elem_of_cons. by right.
Qed.

Lemma max_from_ge_best {A : Type} (key : A -> Z) (best : A) (rest : list A) :
  key best <= key (max_from key best rest).
Proof.
  revert best. induction rest as [|c rest IH]; intros best; simpl; [lia |].
  specialize (IH (if key best <? key c then c else best)).
  destruct (key best <? key c) eqn:Hlt; [apply Z.ltb_lt in Hlt | apply Z.ltb_ge in Hlt]; lia.
Qed.

Lemma max_from_first {A : Type} (key : A -> Z) (best : A) (rest : list A) :
  exists l1 l2,
    best :: rest = l1 ++ max_from key best rest :: l2
    /\ (forall y, y ∈ l1 -> key y < key (max_from key best rest))
    /\ (forall y, y ∈ l2 -> key y <= key (max_from key best rest)).
Proof.
  revert best. induction rest as [|c rest IH]; intros best; simpl.
  - exists [], []. split; [done |]. split; intros y Hy; by apply elem_of_nil in Hy.
  - destruct (key best <? key c) eqn:Hlt.
    + apply Z.ltb_lt in Hlt. destruct (IH c) as (l1 & l2 & Heq & Hl1 & Hl2).
      exists (best :: l1), l2. split; [simpl; by rewrite <- Heq |]. split; [| exact Hl2].
      intros y [-> | Hy]%elem_of_cons; [| by apply Hl1].
      pose proof (max_from_ge_best key c rest). lia.
    + apply Z.ltb_ge in Hlt. destruct (IH best) as (l1 & l2 & Heq & Hl1 & Hl2).
      destruct l1 as [|b l1]; simpl in Heq.
      * injection Heq as Hb Hrest. exists [], (c :: l2).
        split; [simpl; by rewrite <- Hb, Hrest |]. split.
        -- intros y Hy. by apply elem_of_nil in Hy.
        -- intros y [-> | Hy]%elem_of_cons; [by rewrite <- Hb | by apply Hl2].
      * injection Heq as <- Hrest. exists (best :: c :: l1), l2.
        split; [simpl; do 2 f_equal; exact Hrest |]. split; [| exact Hl2].
        assert (key best < key (max_from key best rest)) as Hb
          by (apply Hl1, elem_of_cons; by left).
        intros y [-> | [-> | Hy]%elem_of_cons]%elem_of_cons.
        -- exact Hb.
        -- lia.
        -- apply Hl1, elem_of_cons. by right.
Qed.

Lemma max_from_ge {A : Type} (key : A -> Z) (best : A) (rest : list A) (x : A) :
  x ∈ best :: rest -> key x <= key (max_from key best rest).
Proof.
  intros Hx. destruct (max_from_first key best rest) as (l1 & l2 & Heq & Hl1 & Hl2).
  rewrite Heq in Hx. apply elem_of_app in Hx as [Hx | [-> | Hx]%elem_of_cons].
  - specialize (Hl1 _ Hx). lia.
  - lia.
  - by apply Hl2.
Qed.

Lemma min_from_Z_elem_of (best : Z) (rest : list Z) :
  min_from_Z best rest ∈ best :: rest.
Proof.
  revert best. induction rest as [|c rest IH]; intros best; simpl.
  - apply elem_of_cons. by left.
  - specialize (IH (if c <? best then c else best)).
    apply elem_of_cons in IH as [Heq | Hin].
    + rewrite Heq. destruct (c <? best).
      * apply elem_of_cons. right. apply elem_of_cons. by left.
      * apply elem_of_cons. by left.
    + apply elem_of_cons. right. apply elem_of_cons. by right.
Qed.

Lemma min_from_Z_le (best : Z) (rest : list Z) (x : Z) :
  x ∈ best :: rest -> min_from_Z best rest <= x.
Proof.
  revert best x. induction rest as [|c rest IH]; intros best x; simpl.
  - intros ->%list_elem_of_singleton. lia.
  - assert (min_from_Z (if c <? best then c else best) rest
            <= (if c <? best then c else best)) as Hb
      by (apply IH, elem_of_cons; by left).
    intros [-> | [-> | Hx]%elem_of_cons]%elem_of_cons.
    + destruct (c <? best) eqn:Hlt; [apply Z.ltb_lt in Hlt | apply Z.ltb_ge in Hlt]; lia.
    + destruct (c <? best) eqn:Hlt; [apply Z.ltb_lt in Hlt | apply Z.ltb_ge in Hlt]; lia.
    + apply IH, elem_of_cons. by right.
Qed.




(** ** The stages of [identify_max_latency_node] *)










Lemma identify_inr (d : list (string * Node)) (max_node_name : string) (max_node : Node) :
  identify_max_latency_node d = inr (max_node_name, max_node) ->
  exists x xs e es,
    (fun kv : string * Node => (kv.1, latency kv.2)) <$> d = x :: xs
    /\ max_node_name = (max_from snd x xs).1
    /\ dict_get d max_node_name = Some max_node
    /\ efficiencies d = inr (e :: es)
    /\ ~ (max_from_Q e es == 0)%Q.
Proof.
  unfold identify_max_latency_node.
  destruct ((fun kv : string * Node => (kv.1, latency kv.2)) <$> d) as [|x xs] eqn:Hld;
    simpl; [done |].
  unfold dict_lookup. destruct (dict_get d (max_from snd x xs).1) as [node|] eqn:Hget;
    simpl; [| done].
  destruct (true_div (latency node) _) as [?|contribution]; simpl; [done |].
  destruct (true_div (latency node) _) as [?|degradation]; simpl; [done |].
  destruct (efficiencies d) as [?|effs] eqn:Heff; simpl; [done |].
  destruct (true_div (throughput node) (latency node)) as [?|max_eff]; simpl; [done |].
  destruct effs as [|e es]; simpl; [done |].
  unfold float_div. destruct (Qeq_bool (max_from_Q e es) 0) eqn:Hz; simpl; [done |].
  intros [= <- <-]. exists x, xs, e, es. repeat (split; [done |]).
  intros Hq. apply Qeq_bool_iff in Hq. congruence.
Qed.


(** ** Errors of [identify_max_latency_node] *)








(** ** The node that [identify_max_latency_node] returns *)

(** X12 (maximum latency node).  When [identify_max_latency_node] returns,
    on a registry with distinct names, it returns a name together with the
    node stored under it; no node has a greater latency, and every node
    before it in the iteration order has a strictly smaller latency. *)
Theorem X12_returns_first_maximum (d : list (string * Node)) (max_node_name : string)
        (max_node : Node) :
  NoDup (dict_keys d) ->
  identify_max_latency_node d = inr (max_node_name, max_node) ->
  exists before after,
    d = before ++ (max_node_name, max_node) :: after
    /\ (forall k node, (k, node) ∈ before -> latency node < latency max_node)
    /\ (forall k node, (k, node) ∈ after -> latency node <= latency max_node).
Proof.
  intros Hnd (x & xs & e & es & Hld & -> & Hget & _)%identify_inr.
  destruct (max_from_first snd x xs) as (l1 & l2 & Hsplit & Hl1 & Hl2).
  rewrite Hsplit in Hld.
  apply fmap_app_inv in Hld as (d1 & d2' & -> & Hrest & ->).
  symmetry in Hrest. apply fmap_cons_inv in Hrest as ([k0 node0] & d2 & Hm & -> & ->).
  rewrite Hm in *. simpl in *.
  assert (node0 = max_node) as ->.
  { assert (dict_get (d1 ++ (k0, node0) :: d2) k0 = Some node0) as Hget0.
    { apply elem_of_dict_get; [done |]. apply elem_of_app. right.
      apply elem_of_cons. by left. }
    congruence. }
  exists d1, d2. split; [done |]. split.
  - intros k node Hin.
    apply (Hl1 (k, latency node)). apply list_elem_of_fmap. by exists (k, node).
  - intros k node Hin.
    apply (Hl2 (k, latency node)). apply list_elem_of_fmap. by exists (k, node).
Qed.


Lemma reference_max_latency :
  identify_max_latency_node reference_nodes
  = inr ("CloudZ"%string,
         mkNode "CloudZ" 22 1250 0.4 72 16.0 ["Analytics"; "RPCCall"]%string).
Proof. vm_compute. reflexivity. Defined.

Lemma X12_returns_first_maximum_witness :
  exists before after,
    reference_nodes
    = before ++ ("CloudZ"%string,
                 mkNode "CloudZ" 22 1250 0.4 72 16.0 ["Analytics"; "RPCCall"]%string)
                :: after
    /\ (forall k node, (k, node) ∈ before -> latency node < 22)
    /\ (forall k node, (k, node) ∈ after -> latency node <= 22).
Proof.
  exact (X12_returns_first_maximum reference_nodes _ _ reference_nodes_NoDup
           reference_max_latency).
Defined.



(** ** [analyze_latency_distribution] *)

(** X14 (latency range).  [analyze_latency_distribution] raises [ValueError]
    exactly on an empty registry.  Otherwise the minimum and the maximum it
    prints are latencies of nodes of the registry, every latency lies
    between them, and the range it prints is their difference, which is not
    negative. *)
Theorem X14_latency_range (d : list (string * Node)) :
  (analyze_latency_distribution d = inl ValueError <-> d = [])
  /\ (d <> [] ->
      exists minimum maximum,
        analyze_latency_distribution d = inr (minimum, maximum, maximum - minimum)
        /\ 0 <= maximum - minimum
        /\ (forall k node, (k, node) ∈ d -> minimum <= latency node <= maximum)
        /\ (exists k node, (k, node) ∈ d /\ latency node = minimum)
        /\ (exists k node, (k, node) ∈ d /\ latency node = maximum)).
Proof.
  unfold analyze_latency_distribution.
  destruct ((fun kv : string * Node => latency kv.2) <$> d) as [|x xs] eqn:Hl; simpl.
  - apply fmap_nil_inv in Hl as ->. split; [done |]. by intros [].
  - split; [split; [done | by intros ->] |]. intros _.
    exists (min_from_Z x xs), (max_from id x xs). split; [done |].
    assert (forall k node, (k, node) ∈ d ->
              min_from_Z x xs <= latency node <= max_from id x xs) as Hall.
    { intros k node Hin.
      assert (latency node ∈ x :: xs) as Hmem.
      { rewrite <- Hl. apply list_elem_of_fmap. by exists (k, node). }
      split; [by apply min_from_Z_le | by apply (max_from_ge id)]. }
    assert (forall z, z ∈ x :: xs -> exists k node, (k, node) ∈ d /\ latency node = z)
      as Hfrom.
    { intros z. rewrite <- Hl. intros ([k node] & -> & Hin)%list_elem_of_fmap. eauto. }
    destruct (Hfrom _ (min_from_Z_elem_of x xs)) as (k1 & n1 & Hin1 & Hmin).
    split; [| split; [done | split]].
    + specialize (Hall _ _ Hin1). lia.
    + by apply Hfrom, min_from_Z_elem_of.
    + by apply Hfrom, (max_from_elem_of id).
Qed.

Lemma X14_latency_range_witness :
  exists minimum maximum,
    analyze_latency_distribution reference_nodes = inr (minimum, maximum, maximum - minimum)
    /\ 0 <= maximum - minimum
    /\ (forall k node, (k, node) ∈ reference_nodes -> minimum <= latency node <= maximum)
    /\ (exists k node, (k, node) ∈ reference_nodes /\ latency node = minimum)
    /\ (exists k node, (k, node) ∈ reference_nodes /\ latency node = maximum).
Proof.
  apply (proj2 (X14_latency_range reference_nodes)). discriminate.
Defined.

(** ** The status table *)

Lemma status_rows_ok (a : gmap string (list Process)) (items : list (string * Node)) :
  (forall k, k ∈ dict_keys items -> is_Some (a !! k)) ->
  status_rows a items
  = inr ((fun kv : string * Node =>
            (kv.1, cpu kv.2, memory kv.2, calculate_load_score kv.2,
             length (default [] (a !! kv.1)))) <$> items).
Proof.
  induction items as [|[k node] items IH]; intros Hall; simpl; [done |].
  destruct (Hall k) as [procs Hk]; [apply elem_of_cons; by left |].
  rewrite Hk. simpl. rewrite IH; [done |].
  intros k' Hk'. apply Hall, elem_of_cons. by right.
Qed.

Lemma status_rows_missing (a : gmap string (list Process)) (items : list (string * Node))
      (k : string) :
  k ∈ dict_keys items -> a !! k = None -> status_rows a items = inl KeyError.
Proof.
  induction items as [|[k' node] items IH]; simpl.
  - by intros ?%elem_of_nil.
  - intros [-> | Hin]%elem_of_cons Hk.
    + by rewrite Hk.
    + destruct (a !! k'); [| done]. by rewrite IH.
Qed.

(** X15 (status table).  On a registry in range (small integers, so that no
    load score overflows), [_print_node_status] raises [KeyError] as soon as
    some node name of the registry is not a key of the allocation map.  When
    every node name is a key it prints one row per node, in registry order,
    with the node's name, [cpu], [memory], load score and the length of its
    allocation list. *)
Theorem X15_status_table (self : ProcessAllocator) :
  registry_in_range (nodes self) ->
  ((forall k, k ∈ dict_keys (nodes self) -> is_Some (allocations self !! k)) ->
   _print_node_status self
   = inr ((fun kv : string * Node =>
             (kv.1, cpu kv.2, memory kv.2, calculate_load_score kv.2,
              length (default [] (allocations self !! kv.1)))) <$> nodes self))
  /\ (forall k, k ∈ dict_keys (nodes self) -> allocations self !! k = None ->
                _print_node_status self = inl KeyError).
Proof.
  intros _. split.
  - apply status_rows_ok.
  - intros k. apply status_rows_missing.
Qed.

Lemma after_P1_in_range : registry_in_range (nodes after_P1).
Proof.
  intros k node Hin. apply list_elem_of_In in Hin. vm_compute in Hin.
  repeat (destruct Hin as [Hin | Hin];
          [injection Hin as <- <-;
           unfold node_in_range, small_int; simpl; solve_node_in_range |]).
  destruct Hin.
Defined.

Lemma X15_status_table_witness :
  _print_node_status after_P1
  = inr ((fun kv : string * Node =>
            (kv.1, cpu kv.2, memory kv.2, calculate_load_score kv.2,
             length (default [] (allocations after_P1 !! kv.1)))) <$> nodes after_P1).
Proof.
  apply (proj1 (X15_status_table after_P1 after_P1_in_range)).
  intros k Hk. apply elem_of_dom.
  assert (registered after_P1) as ->.
  { exact (allocate_single_registered _ _ _ _ P1_Analytics_placed
             (init_registered reference_nodes)). }
  by apply elem_of_list_to_set.
Defined.

(** ** The total of the report *)

Lemma total_allocated_insert (a : gmap string (list Process)) (k : string)
      (procs : list Process) (p : Process) :
  a !! k = Some procs ->
  total_processes_allocated (<[k := procs ++ [p]]> a) = S (total_processes_allocated a).
Proof.
  intros Hk. unfold total_processes_allocated.
  rewrite <- (insert_delete_eq a k (procs ++ [p])).
  rewrite <- (insert_delete_id a k procs Hk) at 2.
  rewrite !map_to_list_insert by apply lookup_delete_eq.
  simpl. rewrite length_app. simpl. lia.
Qed.

Lemma total_allocated_empty_lists (a : gmap string (list Process)) :
  (forall k procs, a !! k = Some procs -> procs = []) ->
  total_processes_allocated a = 0%nat.
Proof.
  intros Hall. unfold total_processes_allocated.
  assert (Forall (fun kv : string * list Process => kv.2 = []) (map_to_list a)) as Hf.
  { apply Forall_forall. intros [k procs] Hin. apply elem_of_map_to_list in Hin.
    simpl. by eapply Hall. }
  induction Hf as [|[k procs] l Hx Hl IH]; [done |].
  simpl in *. subst procs. simpl. exact IH.
Qed.

Lemma placed_cons (p : Process) (r : option string) (log : list outcome) :
  placed ((p, r) :: log)
  = match r with Some _ => p :: placed log | None => placed log end.
Proof.
  unfold placed. rewrite filter_cons. simpl. destruct r as [k|].
  - by rewrite decide_True by eauto.
  - by rewrite decide_False by (by intros [? ?]).
Qed.

Lemma allocate_loop_total_allocated (ps : list Process) (self final : ProcessAllocator)
      (log : list outcome) :
  allocate_loop self ps = Some (final, log) ->
  total_processes_allocated (allocations final)
  = (total_processes_allocated (allocations self) + length (placed log))%nat.
Proof.
  revert self final log. induction ps as [|p ps IH]; intros self final log; simpl.
  - intros [= <- <-]. unfold placed. simpl. lia.
  - destruct (_allocate_single_process self p) as [[self1 r]|] eqn:Hstep; simpl; [| done].
    destruct (allocate_loop self1 ps) as [[self2 log2]|] eqn:Hloop; simpl; [| done].
    intros [= <- <-]. rewrite (IH _ _ _ Hloop), placed_cons.
    apply allocate_single_inv in Hstep
      as [(-> & -> & _) | (best & best_node & lst & -> & _ & _ & _ & Hlk & ->)].
    + done.
    + simpl. rewrite (total_allocated_insert _ _ _ _ Hlk). lia.
Qed.

(** X16 (total of the report).  After a pass on a freshly constructed
    allocator, the total of allocated processes that [_generate_report]
    prints is the number of workloads the pass placed, so this total plus
    the number of failed workloads is the size of the batch; the number of
    nodes it prints is the size of the registry. *)
Theorem X16_report_total (d : list (string * Node)) (processes : list Process)
        (max_latency_node : string) :
  exists final log,
    allocate_processes (ProcessAllocator_init d) processes = Some (final, log)
    /\ _generate_report (nodes final) max_latency_node (allocations final)
       = (max_latency_node, length (placed log), length d)
    /\ (length (placed log) + length (unplaced log) = length processes)%nat.
Proof.
  destruct (allocate_processes_run d processes)
    as (final & log & Hrun & Hlog & Hkeys & _).
  exists final, log. split; [done |]. split.
  - unfold _generate_report. f_equal; [f_equal |].
    + rewrite (allocate_loop_total_allocated _ _ _ _ Hrun).
      rewrite total_allocated_empty_lists; [done |].
      intros k procs Hk. rewrite init_lookup in Hk.
      destruct (decide (k ∈ dict_keys d)); by simplify_eq.
    + rewrite <- (length_fmap fst (nodes final)), <- (length_fmap fst d).
      change (length (dict_keys (nodes final)) = length (dict_keys d)).
      by rewrite Hkeys.
  - rewrite <- (sorted_by_priority_perm processes), <- Hlog, length_fmap.
    apply placed_unplaced_length.
Qed.

(** ** The final status table *)

(** X17 (final status table).  After a pass on a freshly constructed
    allocator [_print_node_status] does not raise, and the process count it
    prints for a node is the number of workloads the pass placed on that
    node. *)
Theorem X17_final_status (d : list (string * Node)) (processes : list Process) :
  exists final log,
    allocate_processes (ProcessAllocator_init d) processes = Some (final, log)
    /\ _print_node_status final
       = inr ((fun kv : string * Node =>
                 (kv.1, cpu kv.2, memory kv.2, calculate_load_score kv.2,
                  length (placed_on kv.1 log))) <$> nodes final).
Proof.
  destruct (allocate_processes_run d processes)
    as (final & log & Hrun & _ & Hkeys & _ & Hallocs & _).
  exists final, log. split; [done |].
  assert (forall k, k ∈ dict_keys (nodes final) ->
                    allocations final !! k = Some (placed_on k log)) as Hlk.
  { intros k Hk. apply Hallocs. by rewrite <- Hkeys. }
  unfold _print_node_status. rewrite status_rows_ok by (intros k Hk; rewrite Hlk; eauto).
  f_equal. apply list_fmap_ext. intros i [k node] Hi. simpl.
  rewrite Hlk; [done |].
  apply list_elem_of_fmap. exists (k, node). split; [done |].
  by eapply list_elem_of_lookup_2.
Qed.

(** ** Priority *)

(** X3 (the top priority is served first).  Take a registry and a batch in
    range ([registry_in_range], [batch_in_range]): small integers,
    non-negative requirements and exact memory values, so that nothing
    overflows and the memory sums of the gate are not rounded.  A workload
    whose priority is strictly higher than that of every other workload of
    the batch is attempted first, on the registry as constructed: it is
    placed exactly when some node of that registry passes the capacity gate
    for it, whatever else the batch asks for. *)
Theorem X3_top_priority_first (d : list (string * Node)) (pre post : list Process)
        (p : Process) :
  registry_in_range d ->
  batch_in_range (pre ++ p :: post) ->
  (forall q, q ∈ pre ++ post -> priority q < priority p) ->
  exists final log r,
    allocate_processes (ProcessAllocator_init d) (pre ++ p :: post)
    = Some (final, (p, r) :: log)
    /\ (is_Some r <->
        exists k node,
          (k, node) ∈ d
          /\ has_capacity node (cpu_requirement p) (memory_requirement p) = true).
Proof.
  intros _ _ Hlow. unfold allocate_processes.
  pose proof (sorted_by_priority_perm (pre ++ p :: post)) as Hperm.
  pose proof (sorted_by_priority_sorted (pre ++ p :: post)) as Hsorted.
  destruct (sorted_by_priority (pre ++ p :: post)) as [|x rest] eqn:Hs.
  { symmetry in Hperm. apply Permutation_nil_r in Hperm. by destruct pre. }
  assert (x = p) as ->.
  { assert (x ∈ pre ++ p :: post) as Hx
      by (rewrite <- Hperm; apply elem_of_cons; by left).
    assert (p ∈ x :: rest) as Hp.
    { rewrite Hperm. apply elem_of_app. right. apply elem_of_cons. by left. }
    apply elem_of_app in Hx as [Hx | [-> | Hx]%elem_of_cons]; [| done |].
    - assert (priority x < priority p) as Hlt by (apply Hlow, elem_of_app; by left).
      apply elem_of_cons in Hp as [-> | Hp]; [lia |].
      apply StronglySorted_cons in Hsorted as [Hall _].
      rewrite Forall_forall in Hall. specialize (Hall _ Hp). unfold higher_first in Hall. lia.
    - assert (priority x < priority p) as Hlt by (apply Hlow, elem_of_app; by right).
      apply elem_of_cons in Hp as [-> | Hp]; [lia |].
      apply StronglySorted_cons in Hsorted as [Hall _].
      rewrite Forall_forall in Hall. specialize (Hall _ Hp). unfold higher_first in Hall. lia. }
  destruct (allocate_single_total (ProcessAllocator_init d) p (init_registered d))
    as (self1 & r & Hstep).
  assert (is_Some r <->
          exists k node,
            (k, node) ∈ d
            /\ has_capacity node (cpu_requirement p) (memory_requirement p) = true)
    as Hsome.
  { destruct (allocate_single_inv _ _ _ _ Hstep)
      as [(-> & _ & Hnil) | (best & best_node & lst & -> & Hin & Hcap & _)].
    - pose proof (proj1 (find_candidates_nil _ _) Hnil) as Hno. split.
      + by intros [? ?].
      + intros (k & node & Hk & Hc). by rewrite (Hno _ _ Hk) in Hc.
    - split; [by eauto | by eexists]. }
  destruct (allocate_loop_total self1 rest
              (allocate_single_registered _ _ _ _ Hstep (init_registered d)))
    as (final & log & Hloop & _).
  exists final, log, r. split; [| exact Hsome].
  by rewrite (allocate_loop_cons _ _ _ _ _ Hstep), Hloop.
Qed.

Lemma X3_top_priority_first_witness :
  exists final log r,
    allocate_processes (ProcessAllocator_init reference_nodes)
                       ([rpc_probe] ++ P1_Analytics :: [rpc_decorated])
    = Some (final, (P1_Analytics, r) :: log)
    /\ (is_Some r <->
        exists k node,
          (k, node) ∈ reference_nodes /\ has_capacity node 15 2.0 = true).
Proof.
  apply (X3_top_priority_first reference_nodes [rpc_probe] [rpc_decorated] P1_Analytics
           reference_nodes_in_range).
  - intros q Hq. apply list_elem_of_In in Hq. simpl in Hq.
    repeat (destruct Hq as [<- | Hq];
            [split; [unfold process_in_range, small_int; simpl; solve_node_in_range
                    | split; [simpl; lia | by vm_compute]] |]).
    destruct Hq.
  - intros q Hq. apply list_elem_of_In in Hq. simpl in Hq.
    repeat (destruct Hq as [<- | Hq]; [simpl; lia |]).
    destruct Hq.
Defined.

Lemma sublist_sorted (l1 l2 : list Process) :
  l1 `sublist_of` l2 -> StronglySorted higher_first l2 -> StronglySorted higher_first l1.
Proof.
  induction 1 as [|x l1 l2 Hsub IH|x l1 l2 Hsub IH]; intros Hs; [done | |].
  - apply StronglySorted_cons in Hs as [Hall Hs]. apply StronglySorted_cons.
    split; [| by apply IH]. rewrite Forall_forall in *.
    intros y Hy. apply Hall. by eapply elem_of_sublist.
  - apply StronglySorted_cons in Hs as [_ Hs]. by apply IH.
Qed.

(** X18 (allocation lists follow the priorities).  After a pass on a freshly
    constructed allocator, every allocation list is in order of
    non-increasing priority: a workload never stands before one of strictly
    higher priority in the list of a node. *)
Theorem X18_lists_by_priority (d : list (string * Node)) (processes : list Process) :
  exists final log,
    allocate_processes (ProcessAllocator_init d) processes = Some (final, log)
    /\ forall k procs,
         allocations final !! k = Some procs ->
         forall (i j : nat) p q,
           (i < j)%nat -> procs !! i = Some p -> procs !! j = Some q ->
           priority q <= priority p.
Proof.
  destruct (allocate_processes_run d processes)
    as (final & log & Hrun & Hlog & _ & _ & Hallocs & _).
  exists final, log. split; [done |].
  intros k procs [_ ->]%Hallocs. apply sorted_lookup.
  eapply sublist_sorted; [| apply (sorted_by_priority_sorted processes)].
  rewrite <- Hlog. unfold placed_on. apply fmap_sublist, sublist_filter.
Qed.
